(** * Web Serial Plotter: line parser, gesture handlers, data connection
      and serial transport

    A shallow embedding of [src/App.tsx] (the incoming-line parser and the
    pan / freeze handlers), of the [useDataConnection] hook and of the
    [useSerial] hook, with the properties the specification states about
    them.

    Conventions.
    - A JavaScript string is the list of its UTF-16 code units ([jsstring]).
    - A JavaScript number is an IEEE 754 binary64 value ([float]).
    - Code that calls collaborators and may throw runs in the monad [Eff]:
      a state transformer that returns [Ok] or [Throw], keeping the state
      on a throw as JavaScript does.
    - React state and refs are read at call time (one handler runs to
      completion before the next one starts). *)

From Stdlib Require Import ZArith NArith List Bool Lia Floats Ascii String.
From stdpp Require Import base list.
From Equations Require Import Equations.

(** ** JavaScript strings *)

Module JS.

Local Open Scope N_scope.

Definition char16 := N.
Definition jsstring := list char16.

(** A string literal of the development; every character is one unit. *)
Definition lit (s : string) : jsstring :=
  List.map N_of_ascii (list_ascii_of_string s).

Definition LF : char16 := 10.
Definition CR : char16 := 13.
Definition HASH : char16 := 35.
Definition COMMA : char16 := 44.
Definition TAB : char16 := 9.

(** ECMAScript WhiteSpace and LineTerminator: what [trim] strips and
    what the class [\s] matches. *)
Definition isWhiteSpace (c : char16) : bool :=
  (9 <=? c) && (c <=? 13)
  || (c =? 32) || (c =? 160) || (c =? 5760)
  || (8192 <=? c) && (c <=? 8202)
  || (c =? 8232) || (c =? 8233) || (c =? 8239) || (c =? 8287)
  || (c =? 12288) || (c =? 65279).

Fixpoint dropWhile {A} (p : A → bool) (l : list A) : list A :=
  match l with
  | [] => []
  | x :: l' => if p x then dropWhile p l' else l
  end.

Definition trimStart (s : jsstring) : jsstring := dropWhile isWhiteSpace s.
Definition trimEnd (s : jsstring) : jsstring :=
  rev (dropWhile isWhiteSpace (rev s)).
Definition trim (s : jsstring) : jsstring := trimEnd (trimStart s).

(** [s.startsWith(c)] for a one-unit search string. *)
Definition startsWith (s : jsstring) (c : char16) : bool :=
  match s with
  | x :: _ => x =? c
  | [] => false
  end.

(** [s.indexOf(c)] for a one-unit search string; [None] stands for -1. *)
Fixpoint indexOf (s : jsstring) (c : char16) : option nat :=
  match s with
  | [] => None
  | x :: s' => if x =? c then Some 0%nat else S <$> indexOf s' c
  end.

(** [s.slice(from)] and [s.slice(0, to)] for indices within the string. *)
Definition sliceFrom (s : jsstring) (from : nat) : jsstring := drop from s.
Definition sliceTo (s : jsstring) (to : nat) : jsstring := take to s.

(** The truthiness of a string: [Boolean(s)] is false only for [""]. *)
Definition Boolean (s : jsstring) : bool :=
  match s with [] => false | _ => true end.

(** [Number.isFinite(v)] on a value that is a number. *)
Definition isFinite (v : float) : bool := PrimFloat.is_finite v.

End JS.
Import JS.

(** ** Effects: state and exceptions *)

(** What a browser API rejects with: an exception object of the browser
    (a [DOMException], a [TypeError]: all of them [instanceof Error]) with
    its name and message, or some other value. *)
Inductive BrowserRejection :=
| BrowserException (name message : string)
| OtherValue (tag : nat).

(** A thrown value: an object this code makes with [new Error(message)],
    or what a browser API rejected with. *)
Inductive JsError :=
| ErrorObject (message : string)
| Rejected (r : BrowserRejection).

Inductive Outcome (A : Type) :=
| Ok (a : A)
| Throw (e : JsError).
Arguments Ok {A} a.
Arguments Throw {A} e.

Definition Eff (St A : Type) : Type := St → Outcome A * St.

#[export] Instance eff_ret {St} : MRet (Eff St) := λ A a s, (Ok a, s).
#[export] Instance eff_bind {St} : MBind (Eff St) := λ A B f m s,
  match m s with
  | (Ok a, s') => f a s'
  | (Throw e, s') => (Throw e, s')
  end.

Definition throw {St A} (e : JsError) : Eff St A := λ s, (Throw e, s).
Definition gets {St A} (f : St → A) : Eff St A := λ s, (Ok (f s), s).
Definition modify {St} (f : St → St) : Eff St unit := λ s, (Ok tt, f s).

(** [try { body } catch (err) { handler(err) }] *)
Definition try_catch {St A} (body : Eff St A) (handler : JsError → Eff St A)
  : Eff St A := λ s,
  match body s with
  | (Ok a, s') => (Ok a, s')
  | (Throw e, s') => handler e s'
  end.

(** [try { body } finally { final }] for a [final] block that does not
    throw: it runs on both exits and the outcome of [body] is kept. *)
Definition try_finally {St A} (body : Eff St A) (final : St → St)
  : Eff St A := λ s,
  let '(r, s') := body s in (r, final s').

Definition when {St} (b : bool) (m : Eff St unit) : Eff St unit :=
  if b then m else mret tt.

Definition exec {St A} (m : Eff St A) (s : St) : St := snd (m s).
Definition outcome {St A} (m : Eff St A) (s : St) : Outcome A := fst (m s).

(** [err instanceof Error ? err.message : fallback] *)
Definition messageOr (e : JsError) (fallback : string) : string :=
  match e with
  | ErrorObject m => m
  | Rejected (BrowserException _ m) => m
  | Rejected (OtherValue _) => fallback
  end.

(** ** The data store, as the application uses it *)

(** The methods of [useDataStore()] that [App.tsx] calls.  The store itself
    is a collaborator: its methods are total state transformers and
    observations of a state [S]. *)
Class DataStore (S : Type) := {
  setSeries : list jsstring → S → S;
  append : list float → S → S;
  stopMomentum : S → S;
  startMomentum : float → S → S;
  getFrozen : S → bool;
  setFrozen : bool → S → S;
  getViewPortCursor : S → float;
  setViewPortCursor : float → S → S;
}.

(** Modelled from the spec: what sections 4.3 and 4.4 say of the store
    methods the pan and freeze handlers call ([store/dataStore] is not
    among the sources).  [momentumActive] tells whether a decay animation
    is in flight.  [stopMomentum] cancels the animation and nothing else;
    entering frozen mode keeps the cursor; leaving it resets the cursor to
    0 and cancels the momentum. *)
Class DataStoreLaws (S : Type) `{DataStore S} (momentumActive : S → bool)
  : Prop := {
  stopMomentum_active s : momentumActive (stopMomentum s) = false;
  stopMomentum_frozen s : getFrozen (stopMomentum s) = getFrozen s;
  stopMomentum_cursor s : getViewPortCursor (stopMomentum s) = getViewPortCursor s;
  setFrozen_frozen b s : getFrozen (setFrozen b s) = b;
  setFrozen_true_cursor s :
    getViewPortCursor (setFrozen true s) = getViewPortCursor s;
  setFrozen_true_active s :
    momentumActive (setFrozen true s) = momentumActive s;
  setFrozen_false_cursor s : getViewPortCursor (setFrozen false s) = 0%float;
  setFrozen_false_active s : momentumActive (setFrozen false s) = false;
}.

(** A mutating call on the store, as seen from outside. *)
Inductive StoreCall :=
| CallSetSeries (names : list jsstring)
| CallAppend (values : list float)
| CallStopMomentum
| CallStartMomentum (v : float)
| CallSetFrozen (b : bool)
| CallSetViewPortCursor (v : float).

(** A store that forwards every call to an inner store and records the
    mutating calls, oldest first. *)
Record Recorder (S : Type) := MkRecorder {
  inner : S;
  calls : list StoreCall;
}.
Arguments MkRecorder {S} inner calls.
Arguments inner {S} r.
Arguments calls {S} r.

Definition recorded {S} (c : StoreCall) (f : S → S) (r : Recorder S)
  : Recorder S :=
  {| inner := f (inner r); calls := calls r ++ [c] |}.

#[export] Instance recorder_store {S} `{DataStore S} : DataStore (Recorder S) := {
  setSeries names := recorded (CallSetSeries names) (setSeries names);
  append values := recorded (CallAppend values) (append values);
  stopMomentum := recorded CallStopMomentum stopMomentum;
  startMomentum v := recorded (CallStartMomentum v) (startMomentum v);
  getFrozen r := getFrozen (inner r);
  setFrozen b := recorded (CallSetFrozen b) (setFrozen b);
  getViewPortCursor r := getViewPortCursor (inner r);
  setViewPortCursor v := recorded (CallSetViewPortCursor v) (setViewPortCursor v);
}.

(** ** [App.tsx]: the incoming-line parser *)

Module App.

(** The state the handlers of [App] reach: [lastLine] (React state), the
    lines handed to [consoleStore.addIncoming], and the data store. *)
Record State (S : Type) := MkState {
  lastLine : jsstring;
  consoleIncoming : list jsstring;
  store : S;
}.
Arguments MkState {S} lastLine consoleIncoming store.
Arguments lastLine {S} s.
Arguments consoleIncoming {S} s.
Arguments store {S} s.

Definition setLastLine {S} (line : jsstring) : Eff (State S) unit :=
  modify (λ a, MkState line (consoleIncoming a) (store a)).
Definition consoleStore_addIncoming {S} (line : jsstring) : Eff (State S) unit :=
  modify (λ a, MkState (lastLine a) (consoleIncoming a ++ [line]) (store a)).
(** [store.method(...)] for a mutating method. *)
Definition onStore {S} (f : S → S) : Eff (State S) unit :=
  modify (λ a, MkState (lastLine a) (consoleIncoming a) (f (store a))).
(** [store.getter()] *)
Definition fromStore {S A} (f : S → A) : Eff (State S) A :=
  gets (λ a, f (store a)).

(** The separators of [/[\s,\t]+/]: white space, comma, tab. *)
Definition isSeparator (c : char16) : bool :=
  isWhiteSpace c || (c =? COMMA)%N || (c =? TAB)%N.

(** [s.split(/[\s,\t]+/)]: the pieces of [s] between the maximal runs of
    separators.  [cur] is the piece being read and [inRun] tells that the
    previous unit was a separator.  A leading run gives a first piece
    [""], a trailing run a last piece [""], and [""] splits into [[""]]. *)
Fixpoint split_go (inRun : bool) (cur : jsstring) (s : jsstring)
  : list jsstring :=
  match s with
  | [] => [cur]
  | c :: s' =>
      if isSeparator c
      then if inRun then split_go true [] s'
           else cur :: split_go true [] s'
      else split_go false (cur ++ [c]) s'
  end.
Definition split (s : jsstring) : list jsstring := split_go false [] s.

(** [s.replace(/^\s*#+\s*/, '')]: white space, then one or more ['#'],
    then white space, all at the start; a string that does not start so
    is returned as it is. *)
Definition replace_header_prefix (s : jsstring) : jsstring :=
  let s1 := dropWhile isWhiteSpace s in
  if startsWith s1 HASH
  then dropWhile isWhiteSpace (dropWhile (N.eqb HASH) s1)
  else s.

Section Parser.

Context {S : Type} `{DataStore S}.

(** [Number(p)], the built-in conversion of a string to a number. *)
Variable Number : jsstring → float.

(** [for (const p of parts) { const v = Number(p);
                              if (Number.isFinite(v)) values.push(v) }] *)
Definition collect (parts : list jsstring) : list float :=
  fold_left
    (λ values p, let v := Number p in
                 if isFinite v then values ++ [v] else values)
    parts [].

Definition handleIncomingLine (line : jsstring) : Eff (State S) unit :=
  setLastLine line ;;
  consoleStore_addIncoming line ;;
  if startsWith (trim line) HASH then
    let names := List.filter Boolean (split (replace_header_prefix line)) in
    when (0 <? length names)%nat (onStore (setSeries names))
  else
    let parts := List.filter Boolean (split (trim line)) in
    if (length parts =? 0)%nat then mret tt else
    let values := collect parts in
    when (0 <? length values)%nat (onStore (append values)).

End Parser.

(** *** [App.tsx]: the pan and freeze handlers of the plot *)

Section Gestures.

Context {S : Type} `{DataStore S}.

Definition onPanStart : Eff (State S) unit :=
  onStore stopMomentum ;;
  frozen ← fromStore getFrozen ;
  when (negb frozen) (onStore (setFrozen true)).

Definition onPanDelta (delta : float) : Eff (State S) unit :=
  cursor ← fromStore getViewPortCursor ;
  onStore (setViewPortCursor (cursor - delta)%float).

Definition onPanEnd (endV : float) : Eff (State S) unit :=
  onStore (startMomentum (- endV)%float).

Definition onToggleFrozen : Eff (State S) unit :=
  onStore stopMomentum ;;
  frozen ← fromStore getFrozen ;
  if negb frozen then onStore (setFrozen true)
  else (onStore (setViewPortCursor 0%float) ;;
        onStore (setFrozen false)).

End Gestures.

(** *** What the specification says the parser does *)

(** The tokens of a string split on white space, comma and tab: its
    maximal runs of units that are not separators, in order.  [cur] is
    the run being read. *)
Fixpoint spec_tokens_from (cur : jsstring) (s : jsstring) : list jsstring :=
  match s with
  | [] => match cur with [] => [] | _ => [cur] end
  | c :: s' =>
      if isSeparator c
      then match cur with
           | [] => spec_tokens_from [] s'
           | _ => cur :: spec_tokens_from [] s'
           end
      else spec_tokens_from (cur ++ [c]) s'
  end.
Definition spec_tokens (s : jsstring) : list jsstring := spec_tokens_from [] s.

(** The values of a data line: every token converted, the finite ones
    kept, in order. *)
Definition spec_values (Number : jsstring → float) (line : jsstring)
  : list float :=
  List.filter isFinite (Number <$> spec_tokens line).

(** The channel names of a header line: the trimmed text without its
    leading ['#'] units, trimmed again, and split. *)
Definition spec_header_names (line : jsstring) : list jsstring :=
  spec_tokens (trim (dropWhile (N.eqb HASH) (trim line))).

(** The store calls a handler makes when it runs from [a]: the handler
    runs on a recording store whose journal starts empty. *)
Definition watch {S} (a : State S) : State (Recorder S) :=
  MkState (lastLine a) (consoleIncoming a) (MkRecorder (store a) []).
Definition callsOf {S} (m : Eff (State (Recorder S)) unit) (a : State S)
  : list StoreCall :=
  calls (store (exec m (watch a))).

(** *** [App.tsx]: resizing the statistics panel *)




End App.

(** ** The data store of the specification *)

(** [store/dataStore] is not among the sources; the definitions of this
    module follow sections 3 and 4 of the specification. *)
Module SpecStore.

(** Modelled from the spec: the store state of section 3 (the source of
    [store/dataStore] is missing).  Ring buffer: capacity [C], one backing
    array of size [C] per channel, a write cursor and the count [T] of
    rows ever written.  Viewport: cursor, window size, frozen flag.
    Momentum: active flag and velocity. *)
Record Store := MkStore {
  seriesNames : list jsstring;
  capacity : nat;
  buffers : list (list float);
  writeCursor : nat;
  total : nat;
  cursor : float;
  windowSize : nat;
  frozen : bool;
  momentumActive : bool;
  velocity : float;
}.

(** Modelled from the spec: the store at initialization, with no row
    written, in live mode and with no momentum (section 3, Lifecycle). *)
Definition init (names : list jsstring) (C window : nat) : Store :=
  {| seriesNames := names;
     capacity := C;
     buffers := replicate (length names) (replicate C 0%float);
     writeCursor := 0;
     total := 0;
     cursor := 0%float;
     windowSize := window;
     frozen := false;
     momentumActive := false;
     velocity := 0%float |}.

(** Modelled from the spec: [setSeries] of section 4.1.  Empty input is
    ignored, the current names are a no-op, and other names clear all
    rows and reset the viewport to live mode. *)
Definition setSeries (names : list jsstring) (s : Store) : Store :=
  match names with
  | [] => s
  | _ => if bool_decide (names = seriesNames s) then s
         else init names (capacity s) (windowSize s)
  end.

(** Modelled from the spec: [append] of section 4.2.  A row of the wrong
    length is dropped; otherwise value [k] is written in channel [k] at
    the write cursor, the cursor advances circularly and [T] grows by
    one, which overwrites the oldest row once [C] rows are held. *)
Definition append (values : list float) (s : Store) : Store :=
  if (length values =? length (seriesNames s))%nat then
    {| seriesNames := seriesNames s;
       capacity := capacity s;
       buffers := zip_with (λ buf v, <[writeCursor s := v]> buf) (buffers s) values;
       writeCursor := (writeCursor s + 1) mod capacity s;
       total := total s + 1;
       cursor := cursor s;
       windowSize := windowSize s;
       frozen := frozen s;
       momentumActive := momentumActive s;
       velocity := velocity s |}
  else s.

(** Modelled from the spec: the number of rows held, [min(T, C)], and
    the global index of the oldest one, [max(0, T - C)] (section 3). *)
Definition retainedCount (s : Store) : nat := total s `min` capacity s.
Definition oldestIndex (s : Store) : nat := total s - capacity s.

(** Modelled from the spec: the row of global index [i], read from the
    slot [i mod C] of every channel (section 3, circular storage). *)
Definition rowAt (s : Store) (i : nat) : option (list float) :=
  mapM (λ buf : list float, buf !! (i mod capacity s)) (buffers s).

(** Modelled from the spec: the rows held, oldest first, by global index
    from [oldestIndex] up to [T - 1]. *)
Definition retainedRows (s : Store) : list (option (list float)) :=
  rowAt s <$> seq (oldestIndex s) (retainedCount s).

(** Modelled from the spec: the values held for channel [k], oldest
    first. *)
Definition retainedOfChannel (s : Store) (k : nat) : list (option float) :=
  (λ i, buffers s !! k ≫= (.!! (i mod capacity s)))
    <$> seq (oldestIndex s) (retainedCount s).

(** Modelled from the spec: the upper bound of the cursor,
    [max(0, min(T, C) - windowSize)] (section 3), as a number. *)
Definition cursorLimit (s : Store) : float :=
  PrimFloat.of_uint63 (Uint63.of_Z (Z.of_nat (retainedCount s - windowSize s))).

(** Modelled from the spec: [setViewPortCursor] clamps into
    [[0, cursorLimit]] (section 4.3). *)
Definition setViewPortCursor (v : float) (s : Store) : Store :=
  let v' := if (0 <? v)%float
            then if (cursorLimit s <=? v)%float then cursorLimit s else v
            else 0%float in
  {| seriesNames := seriesNames s; capacity := capacity s;
     buffers := buffers s; writeCursor := writeCursor s; total := total s;
     cursor := v';
     windowSize := windowSize s; frozen := frozen s;
     momentumActive := momentumActive s; velocity := velocity s |}.

(** Modelled from the spec: [stopMomentum] cancels the decay animation
    and nothing else (section 4.4). *)
Definition stopMomentum (s : Store) : Store :=
  {| seriesNames := seriesNames s; capacity := capacity s;
     buffers := buffers s; writeCursor := writeCursor s; total := total s;
     cursor := cursor s; windowSize := windowSize s; frozen := frozen s;
     momentumActive := false; velocity := 0%float |}.

(** Modelled from the spec: [startMomentum] begins a decay animation
    with the given velocity, replacing one in flight (section 4.4). *)
Definition startMomentum (v : float) (s : Store) : Store :=
  {| seriesNames := seriesNames s; capacity := capacity s;
     buffers := buffers s; writeCursor := writeCursor s; total := total s;
     cursor := cursor s; windowSize := windowSize s; frozen := frozen s;
     momentumActive := true; velocity := v |}.

(** Modelled from the spec: [setFrozen] of section 4.3.  Entering frozen
    mode keeps the cursor; leaving it resets the cursor to 0 and cancels
    the momentum. *)
Definition setFrozen (b : bool) (s : Store) : Store :=
  {| seriesNames := seriesNames s; capacity := capacity s;
     buffers := buffers s; writeCursor := writeCursor s; total := total s;
     cursor := if b then cursor s else 0%float;
     windowSize := windowSize s;
     frozen := b;
     momentumActive := if b then momentumActive s else false;
     velocity := if b then velocity s else 0%float |}.

(** Modelled from the spec: a sequence of [append] calls, first row
    first, and the rows among them that [append] accepts in a store of
    [n] channels. *)
Definition appendAll (rows : list (list float)) (s : Store) : Store :=
  foldl (λ s r, append r s) s rows.
Definition accepted (n : nat) (rows : list (list float)) : list (list float) :=
  List.filter (λ r, length r =? n)%nat rows.

(** What holds of a store that has accepted the rows [acc], all of
    length [n], since it was empty. *)
Record Holds (n C : nat) (acc : list (list float)) (s : Store) : Prop := {
  holds_names : length (seriesNames s) = n;
  holds_capacity : capacity s = C;
  holds_total : total s = length acc;
  holds_cursor : 0 < C → writeCursor s = length acc mod C;
  holds_channels : length (buffers s) = n;
  holds_sizes : Forall (λ buf, length buf = C) (buffers s);
  holds_rows : Forall (λ r, length r = n) acc;
  holds_cells : ∀ i k, length acc - C ≤ i < length acc → k < n →
    buffers s !! k ≫= (.!! (i mod C)) = acc !! i ≫= (.!! k);
}.

#[global] Instance spec_store : DataStore Store :=
  Build_DataStore Store
    setSeries append stopMomentum startMomentum
    frozen setFrozen cursor setViewPortCursor.

End SpecStore.

(** ** [useSerial]: the serial transport *)

Module Serial.

Definition byte := N.

(** [new TextEncoder().encode(s)]: the UTF-8 bytes of the scalar values of
    [s]; a surrogate pair is one scalar value and a lone surrogate is
    replaced by U+FFFD. *)
Definition isHighSurrogate (c : char16) : bool :=
  ((55296 <=? c) && (c <=? 56319))%N.
Definition isLowSurrogate (c : char16) : bool :=
  ((56320 <=? c) && (c <=? 57343))%N.

Definition continuation (cp : N) (shift : N) : byte :=
  N.lor 128 (N.land (N.shiftr cp shift) 63).

Definition utf8_of_scalar (cp : N) : list byte :=
  if (cp <? 128)%N then [cp]
  else if (cp <? 2048)%N then
    [N.lor 192 (N.shiftr cp 6); continuation cp 0]
  else if (cp <? 65536)%N then
    [N.lor 224 (N.shiftr cp 12); continuation cp 6; continuation cp 0]
  else
    [N.lor 240 (N.shiftr cp 18); continuation cp 12; continuation cp 6;
     continuation cp 0].

Fixpoint TextEncoder_encode (s : jsstring) : list byte :=
  match s with
  | [] => []
  | c :: rest =>
      if isHighSurrogate c then
        match rest with
        | d :: rest' =>
            if isLowSurrogate d
            then utf8_of_scalar (65536 + N.shiftl (c - 55296) 10 + (d - 56320))%N
                   ++ TextEncoder_encode rest'
            else utf8_of_scalar 65533 ++ TextEncoder_encode rest
        | [] => utf8_of_scalar 65533
        end
      else if isLowSurrogate c then utf8_of_scalar 65533 ++ TextEncoder_encode rest
      else utf8_of_scalar c ++ TextEncoder_encode rest
  end.

(** A port the browser hands out, named by a number. *)
Definition Port := nat.

(** The writer of a port: the chunks handed to [writer.write], oldest
    first. *)
Record Writer := MkWriter { writes : list (list byte) }.

Record SerialConfig := MkSerialConfig {
  baudRate : N;
  dataBits : N;
  stopBits : N;
  parity : string;
  flowControl : string;
  encoding : string;
}.

Record SerialState := MkSerialState {
  isSupported : bool;
  isConnecting : bool;
  isConnected : bool;
  port : option Port;
  readerLocked : bool;
  error : option string;
}.

(** The hook: its React state and its refs ([lineHandlerRef] is an
    argument of the read loop below). *)
Record Hook := MkHook {
  state : SerialState;
  abortControllerRef : bool;
  readerRef : option Port;
  portRef : option Port;
  writerRef : option Writer;
}.

Definition initial (supported : bool) : Hook :=
  {| state := {| isSupported := supported; isConnecting := false;
                 isConnected := false; port := None; readerLocked := false;
                 error := None |};
     abortControllerRef := false; readerRef := None; portRef := None;
     writerRef := None |}.

Definition setState (f : SerialState → SerialState) : Eff Hook unit :=
  modify (λ h, MkHook (f (state h)) (abortControllerRef h) (readerRef h)
                      (portRef h) (writerRef h)).
Definition setAbortControllerRef (b : bool) : Eff Hook unit :=
  modify (λ h, MkHook (state h) b (readerRef h) (portRef h) (writerRef h)).
Definition setReaderRef (r : option Port) : Eff Hook unit :=
  modify (λ h, MkHook (state h) (abortControllerRef h) r (portRef h) (writerRef h)).
Definition setPortRef (p : option Port) : Eff Hook unit :=
  modify (λ h, MkHook (state h) (abortControllerRef h) (readerRef h) p (writerRef h)).
Definition setWriterRef (w : option Writer) : Eff Hook unit :=
  modify (λ h, MkHook (state h) (abortControllerRef h) (readerRef h) (portRef h) w).

Definition withError (e : option string) (s : SerialState) : SerialState :=
  MkSerialState (isSupported s) (isConnecting s) (isConnected s) (port s)
                (readerLocked s) e.
Definition withConnecting (b : bool) (s : SerialState) : SerialState :=
  MkSerialState (isSupported s) b (isConnected s) (port s)
                (readerLocked s) (error s).

(** What the browser answers during one [disconnect]: the outcome of
    [portRef.current.close()].  The outcomes of [reader.cancel()] and
    [writer.close()] are ignored by the code. *)
Record DisconnectEnv := MkDisconnectEnv {
  portClose : option BrowserRejection;
}.

(** What the browser answers during one [connect]. *)
Record ConnectEnv := MkConnectEnv {
  closePrevious : DisconnectEnv;      (* for the disconnect it may start with *)
  requestPort : BrowserRejection + Port;  (* navigator.serial.requestPort() *)
  portOpen : option BrowserRejection;     (* port.open({ baudRate }) *)
}.

Definition disconnect (env : DisconnectEnv) : Eff Hook unit :=
  try_finally
    (try_catch
       (setAbortControllerRef false ;;
        (* reader.cancel(), errors ignored *)
        setReaderRef None ;;
        (* writer.close(), errors ignored *)
        setWriterRef None ;;
        p ← gets portRef ;
        match p, portClose env with
        | Some _, Some r => throw (Rejected r)
        | _, _ => setPortRef None
        end)
       (λ _, mret tt))
    (λ h, MkHook (MkSerialState (isSupported (state h)) (isConnecting (state h))
                                false None false (error (state h)))
                 (abortControllerRef h) (readerRef h) (portRef h) (writerRef h)).

(** [connect]; the read loop it starts on success runs later and is
    [readLoop] below. *)
Definition connect (config : SerialConfig) (env : ConnectEnv) : Eff Hook unit :=
  supported ← gets (λ h, isSupported (state h)) ;
  if negb supported then
    setState (withError (Some "Web Serial not supported in this browser."%string))
  else
    previous ← gets portRef ;
    when (bool_decide (is_Some previous)) (disconnect (closePrevious env)) ;;
    setState (λ s, withError None (withConnecting true s)) ;;
    try_finally
      (try_catch
         (match requestPort env with
          | inl r => throw (Rejected r)
          | inr p =>
              (* a port found readable is closed first, errors ignored;
                 the streams, the reader and the writer are then set up *)
              match portOpen env with
              | Some r => throw (Rejected r)
              | None =>
                  setReaderRef (Some p) ;;
                  setWriterRef (Some (MkWriter [])) ;;
                  setPortRef (Some p) ;;
                  setState (λ s, MkSerialState (isSupported s) (isConnecting s)
                                   true (Some p) (readerLocked s) (error s)) ;;
                  setAbortControllerRef true
              end
          end)
         (λ err, setState (withError (Some (messageOr err "Failed to connect.")))))
      (λ h, MkHook (withConnecting false (state h)) (abortControllerRef h)
                   (readerRef h) (portRef h) (writerRef h)).

(** [writer.write(encoded)]: the chunk reaches the writer, which accepts
    it or rejects with [rejection]. *)
Definition writer_write (encoded : list byte)
    (rejection : option BrowserRejection) : Eff Hook unit :=
  modify (λ h, MkHook (state h) (abortControllerRef h) (readerRef h) (portRef h)
                 ((λ w, MkWriter (writes w ++ [encoded])) <$> writerRef h)) ;;
  match rejection with
  | Some r => throw (Rejected r)
  | None => mret tt
  end.

Definition write (data : jsstring) (rejection : option BrowserRejection)
  : Eff Hook unit :=
  w ← gets writerRef ;
  if negb (bool_decide (is_Some w))
  then throw (ErrorObject "Serial port not connected")
  else
    try_catch
      (let encoded := TextEncoder_encode data in
       writer_write encoded rejection)
      (λ err,
         setState (withError (Some (messageOr err "Failed to write to serial port"))) ;;
         throw err).

(** *** The read loop of [connect] *)

(** [s.replace(/\r$/, '')]: one carriage return at the very end goes. *)
Definition replace_trailing_CR (s : jsstring) : jsstring :=
  match rev s with
  | c :: r => if (c =? CR)%N then rev r else s
  | [] => s
  end.

(** What one [await reader.read()] gives. *)
Inductive ReadResult :=
| Chunk (value : jsstring)
| Done
| ReadFails (r : BrowserRejection).

(** [lineHandlerRef.current?.(line)] *)
Definition callHandler {St} (lineHandlerRef : option (jsstring → Eff St unit))
    (line : jsstring) : Eff St unit :=
  match lineHandlerRef with
  | Some handler => handler line
  | None => mret tt
  end.

(** The state of the loop: the local [buffer] and the state the handler
    works on. *)
Definition LoopState (St : Type) : Type := jsstring * St.

(** A value together with the equation that names it. *)
Definition inspect {A} (a : A) : { b : A | a = b } := exist _ a eq_refl.

(** [while ((index = buffer.indexOf('\n')) >= 0) { ... }] *)
Equations? drain {St} (lineHandlerRef : option (jsstring → Eff St unit))
    (buffer : jsstring) (st : St) : Outcome unit * LoopState St
    by wf (length buffer) lt :=
  drain ref buffer st with inspect (indexOf buffer LF) := {
    | exist _ None _ => (Ok tt, (buffer, st))
    | exist _ (Some index) found =>
        let line := replace_trailing_CR (sliceTo buffer index) in
        let buffer' := sliceFrom buffer (index + 1) in
        match callHandler ref line st with
        | (Ok _, st') => drain ref buffer' st'
        | (Throw e, st') => (Throw e, (buffer', st'))
        end }.
Proof.
  subst buffer'. unfold sliceFrom. rewrite length_drop.
  destruct buffer as [|c buffer]; [discriminate found | simpl; lia].
Qed.

Definition drainBuffer {St} (lineHandlerRef : option (jsstring → Eff St unit))
  : Eff (LoopState St) unit :=
  λ '(buffer, st), drain lineHandlerRef buffer st.

(** [while (true) { const { value, done } = await reader.read(); ... }]
    over the results the reader gives; when they run out the loop is
    waiting in [reader.read()]. *)
Fixpoint readLoop_body {St} (lineHandlerRef : option (jsstring → Eff St unit))
    (reads : list ReadResult) : Eff (LoopState St) unit :=
  match reads with
  | [] => mret tt
  | Done :: _ => mret tt
  | ReadFails r :: _ => throw (Rejected r)
  | Chunk value :: rest =>
      when (Boolean value)
        (modify (λ '(buffer, st), (buffer ++ value, st)) ;;
         drainBuffer lineHandlerRef) ;;
      readLoop_body lineHandlerRef rest
  end.

(** [let buffer = ''; try { while (true) ... } catch { }] *)
Definition readLoop {St} (lineHandlerRef : option (jsstring → Eff St unit))
    (reads : list ReadResult) (st : St) : LoopState St :=
  exec (try_catch (readLoop_body lineHandlerRef reads) (λ _, mret tt)) ([], st).

(** A line handler that only notes the lines it is given, oldest first. *)
Definition noteLine (line : jsstring) : Eff (list jsstring) unit :=
  modify (λ seen, seen ++ [line]).

(** *** What the specification says the read loop delivers *)

(** The chunks the reader gives before it is done or fails. *)
Fixpoint chunksRead (reads : list ReadResult) : list jsstring :=
  match reads with
  | Chunk value :: rest => value :: chunksRead rest
  | _ => []
  end.

(** The segments of a stream that a newline ends, without the newline,
    and the units after the last newline.  [cur] is the segment being
    read. *)
Fixpoint spec_segments (cur : jsstring) (s : jsstring)
  : list jsstring * jsstring :=
  match s with
  | [] => ([], cur)
  | c :: s' =>
      if (c =? LF)%N
      then let '(segments, rest) := spec_segments [] s' in
           (cur :: segments, rest)
      else spec_segments (cur ++ [c]) s'
  end.

(** The lines a stream delivers after the unfinished line [cur]: its
    segments, each less a carriage return at its end; and the state a
    handler that does not throw is left in after a list of lines. *)
Definition linesOf (cur s : jsstring) : list jsstring :=
  replace_trailing_CR <$> fst (spec_segments cur s).
Definition handled {St} (handler : jsstring → Eff St unit)
    (lines : list jsstring) (st : St) : St :=
  foldl (λ st line, exec (handler line) st) st lines.

(** A delivered line is its segment, less one carriage return when the
    segment ends with one. *)
Definition StripsOneCR (segment line : jsstring) : Prop :=
  segment = line ++ [CR] ∨ (line = segment ∧ last segment ≠ Some CR).

(** *** Runs of the hook *)

(** The operations of the hook, each with what the browser answers during
    it, and a run of several of them. *)
Inductive Operation :=
| Connect (config : SerialConfig) (env : ConnectEnv)
| Disconnect (env : DisconnectEnv)
| Write (data : jsstring) (rejection : option BrowserRejection).

Definition operate (o : Operation) : Eff Hook unit :=
  match o with
  | Connect config env => connect config env
  | Disconnect env => disconnect env
  | Write data rejection => write data rejection
  end.

Definition operateAll (ops : list Operation) (h : Hook) : Hook :=
  foldl (λ h o, exec (operate o) h) h ops.

(** The state and the refs agree: no connection is being made, and the
    state holds a port exactly when it says connected, in which case the
    refs hold that port, its reader, a writer and an abort controller. *)
Definition Consistent (h : Hook) : Prop :=
  isConnecting (state h) = false
  ∧ match port (state h) with
    | Some p =>
        isConnected (state h) = true
        ∧ portRef h = Some p ∧ readerRef h = Some p
        ∧ is_Some (writerRef h) ∧ abortControllerRef h = true
    | None => isConnected (state h) = false
    end.


End Serial.

(** ** [useDataConnection]: one connection, serial port or generator *)

Module DataConnection.

(** The signal generator hook, [useSignalGenerator], as this hook uses
    it: a state [G] with a running flag, [stop], and the two calls made
    under [try], which may throw.  [Cfg] is [GeneratorConfig]. *)
Class SignalGenerator (G Cfg : Type) := {
  isRunning : G → bool;
  stop : G → G;
  start : Eff G unit;
  setConfig : Cfg → Eff G unit;
}.

Definition DEFAULT_SERIAL_CONFIG : Serial.SerialConfig :=
  Serial.MkSerialConfig 115200 8 1 "none" "none" "ascii".

Inductive ConnectionType := serial | generator.

#[global] Instance ConnectionType_eq_dec : EqDecision ConnectionType.
Proof. solve_decision. Defined.

(** A call this hook makes on one of its two sources. *)
Inductive SourceCall :=
| SerialConnect
| SerialDisconnect
| GeneratorStop
| GeneratorSetConfig
| GeneratorStart.

(** A journal entry: the call, and after it whether the serial port is
    connected and whether the generator runs. *)
Record Entry := MkEntry {
  call : SourceCall;
  serialConnected : bool;
  generatorRunning : bool;
}.

(** The hook: its React state, the two hooks it owns, and the journal of
    the calls it has made on them, oldest first. *)
Record Hook (G : Type) := MkHook {
  connectionType : option ConnectionType;
  isConnecting : bool;
  error : option string;
  serialHook : Serial.Hook;
  generatorHook : G;
  journal : list Entry;
}.
Arguments MkHook {G}.
Arguments connectionType {G} h.
Arguments isConnecting {G} h.
Arguments error {G} h.
Arguments serialHook {G} h.
Arguments generatorHook {G} h.
Arguments journal {G} h.

(** [ConnectionState], computed from the hooks on every render. *)
Record ConnectionState := MkConnectionState {
  type : option ConnectionType;
  stateIsConnecting : bool;
  stateIsConnected : bool;
  stateIsSupported : bool;
  stateError : option string;
}.

Section Hooks.

Context {G Cfg : Type} `{SignalGenerator G Cfg}.

Definition serialIsConnected (h : Hook G) : bool :=
  Serial.isConnected (Serial.state (serialHook h)).
Definition generatorIsRunning (h : Hook G) : bool :=
  isRunning (generatorHook h).

Definition state (h : Hook G) : ConnectionState :=
  {| type := connectionType h;
     stateIsConnecting :=
       isConnecting h || Serial.isConnecting (Serial.state (serialHook h));
     stateIsConnected := serialIsConnected h || generatorIsRunning h;
     stateIsSupported := Serial.isSupported (Serial.state (serialHook h));
     stateError :=
       match error h with
       | Some e => Some e
       | None => Serial.error (Serial.state (serialHook h))
       end |}.

Definition initial (s : Serial.Hook) (g : G) : Hook G :=
  MkHook None false None s g [].

Definition setConnectionType (t : option ConnectionType) : Eff (Hook G) unit :=
  modify (λ h, MkHook t (isConnecting h) (error h) (serialHook h)
                      (generatorHook h) (journal h)).
Definition withIsConnecting (b : bool) (h : Hook G) : Hook G :=
  MkHook (connectionType h) b (error h) (serialHook h) (generatorHook h)
         (journal h).
Definition setIsConnecting (b : bool) : Eff (Hook G) unit :=
  modify (withIsConnecting b).
Definition setError (e : option string) : Eff (Hook G) unit :=
  modify (λ h, MkHook (connectionType h) (isConnecting h) e (serialHook h)
                      (generatorHook h) (journal h)).

(** Notes a call in the journal, with the activity of both sources. *)
Definition note (c : SourceCall) (h : Hook G) : Hook G :=
  MkHook (connectionType h) (isConnecting h) (error h) (serialHook h)
         (generatorHook h)
         (journal h ++ [MkEntry c (serialIsConnected h) (generatorIsRunning h)]).

(** [serial.method(...)]: the call runs on the serial hook and is noted,
    whatever its outcome. *)
Definition onSerial {A} (c : SourceCall) (m : Eff Serial.Hook A)
  : Eff (Hook G) A := λ h,
  let '(r, s) := m (serialHook h) in
  (r, note c (MkHook (connectionType h) (isConnecting h) (error h) s
                     (generatorHook h) (journal h))).

(** [generator.method(...)], likewise. *)
Definition onGenerator {A} (c : SourceCall) (m : Eff G A)
  : Eff (Hook G) A := λ h,
  let '(r, g) := m (generatorHook h) in
  (r, note c (MkHook (connectionType h) (isConnecting h) (error h)
                     (serialHook h) g (journal h))).

Definition connectSerial (config : Serial.SerialConfig) (env : Serial.ConnectEnv)
  : Eff (Hook G) unit :=
  running ← gets generatorIsRunning ;
  when running (onGenerator GeneratorStop (modify stop)) ;;
  setIsConnecting true ;;
  setError None ;;
  try_finally
    (try_catch
       (onSerial SerialConnect (Serial.connect config env) ;;
        setConnectionType (Some serial))
       (λ err,
          setError (Some (messageOr err "Failed to connect to serial port")) ;;
          setConnectionType None ;;
          throw err))
    (withIsConnecting false).

Definition connectGenerator (config : Cfg) (env : Serial.DisconnectEnv)
  : Eff (Hook G) unit :=
  connected ← gets serialIsConnected ;
  when connected (onSerial SerialDisconnect (Serial.disconnect env)) ;;
  setError None ;;
  setConnectionType (Some generator) ;;
  try_catch
    (onGenerator GeneratorSetConfig (setConfig config) ;;
     onGenerator GeneratorStart start)
    (λ err,
       setError (Some (messageOr err "Failed to start signal generator")) ;;
       setConnectionType None).

Definition disconnect (env : Serial.DisconnectEnv) : Eff (Hook G) unit :=
  setError None ;;
  connected ← gets serialIsConnected ;
  when connected (onSerial SerialDisconnect (Serial.disconnect env)) ;;
  running ← gets generatorIsRunning ;
  when running (onGenerator GeneratorStop (modify stop)) ;;
  setConnectionType None.

Definition write (data : jsstring) (rejection : option BrowserRejection)
  : Eff (Hook G) unit :=
  t ← gets connectionType ;
  connected ← gets serialIsConnected ;
  if negb (bool_decide (t = Some serial)) || negb connected
  then throw (ErrorObject "Serial port not connected")
  else λ h,
    let '(r, s) := Serial.write data rejection (serialHook h) in
    (r, MkHook (connectionType h) (isConnecting h) (error h) s
               (generatorHook h) (journal h)).

(** The three operations of the hook, with what the browser answers
    during each, and a run of several of them. *)
Inductive Action :=
| ConnectSerial (config : Serial.SerialConfig) (env : Serial.ConnectEnv)
| ConnectGenerator (config : Cfg) (env : Serial.DisconnectEnv)
| Disconnect (env : Serial.DisconnectEnv).

Definition perform (a : Action) : Eff (Hook G) unit :=
  match a with
  | ConnectSerial config env => connectSerial config env
  | ConnectGenerator config env => connectGenerator config env
  | Disconnect env => disconnect env
  end.

Definition performAll (actions : list Action) (h : Hook G) : Hook G :=
  foldl (λ h a, exec (perform a) h) h actions.

(** At most one source is active: in a state of the hook, and at the
    time of a journal entry. *)
Definition atMostOneActive (h : Hook G) : Prop :=
  ¬ (serialIsConnected h = true ∧ generatorIsRunning h = true).
Definition entryAtMostOneActive (e : Entry) : Prop :=
  ¬ (serialConnected e = true ∧ generatorRunning e = true).

(** The calls noted since the journal had [n] entries. *)
Definition callsSince (n : nat) (h : Hook G) : list SourceCall :=
  call <$> drop n (journal h).

End Hooks.

(** What this hook relies on in the generator: [stop] stops it. *)
Class SignalGeneratorLaws (G Cfg : Type) `{SignalGenerator G Cfg} : Prop := {
  stop_stops g : isRunning (stop g) = false;
}.

(** A generator for running the hook on examples: a running flag and a
    configuration; starting and configuring it never throw. *)
Record SimpleGenerator := MkSimpleGenerator {
  running : bool;
  config : nat;
}.

#[global] Instance simple_generator : SignalGenerator SimpleGenerator nat := {
  isRunning := running;
  stop g := MkSimpleGenerator false (config g);
  start := modify (λ g, MkSimpleGenerator true (config g));
  setConfig c := modify (λ g, MkSimpleGenerator (running g) c);
}.

(** *** Runs of the hook with writes *)

Section Steps.

Context {G Cfg : Type} `{SignalGenerator G Cfg}.

(** One of the three operations or a [write], and a run of them. *)
Inductive Step :=
| Operate (a : Action (Cfg := Cfg))
| WriteData (data : jsstring) (rejection : option BrowserRejection).

Definition step (s : Step) : Eff (Hook G) unit :=
  match s with
  | Operate a => perform a
  | WriteData data rejection => write data rejection
  end.

Definition stepAll (steps : list Step) (h : Hook G) : Hook G :=
  foldl (λ h s, exec (step s) h) h steps.

(** The hook agrees with its serial hook: that one is consistent, a
    connected port goes with the connection type serial, and no
    connection is being made. *)
Definition Agrees (h : Hook G) : Prop :=
  Serial.Consistent (serialHook h)
  ∧ (serialIsConnected h = true → connectionType h = Some serial)
  ∧ isConnecting h = false.

End Steps.

End DataConnection.

(** ** Values for concrete runs *)

Module Sample.

Import App.

(** [Number] on the tokens of the examples: a string of at most 18
    decimal digits converts to the integer it spells and the empty string
    to 0; every other string is taken to NaN, which is what [Number]
    gives for the words the examples use. *)
Fixpoint digitsValue (s : jsstring) (acc : Z) : option Z :=
  match s with
  | [] => Some acc
  | c :: s' =>
      if ((48 <=? c) && (c <=? 57))%N
      then digitsValue s' (10 * acc + Z.of_N (c - 48))%Z
      else None
  end.
Definition NumberOfDigits (s : jsstring) : float :=
  match digitsValue s 0%Z with
  | Some z => if (length s <=? 18)%nat
              then PrimFloat.of_uint63 (Uint63.of_Z z) else nan
  | None => nan
  end.

(** A store of the specification with two channels, capacity 4 and a
    window of 2 rows, holding nothing. *)
Definition emptyStore : SpecStore.Store :=
  SpecStore.init [lit "a"; lit "b"] 4 2.
Definition emptyApp : State SpecStore.Store := MkState [] [] emptyStore.

(** A frozen store panned away from the live edge, with momentum. *)
Definition frozenStore : SpecStore.Store :=
  SpecStore.startMomentum 3%float
    (SpecStore.setViewPortCursor 1%float
       (SpecStore.setFrozen true
          (foldr SpecStore.append emptyStore
             [[1%float; 2%float]; [3%float; 4%float]; [5%float; 6%float]]))).
Definition frozenApp : State SpecStore.Store := MkState [] [] frozenStore.

(** A hook whose generator runs, and a browser that grants port 1 and
    opens it. *)
Definition generatorRuns : DataConnection.Hook DataConnection.SimpleGenerator :=
  DataConnection.initial (Serial.initial true)
    (DataConnection.MkSimpleGenerator true 0).
Definition portOpens : Serial.ConnectEnv :=
  Serial.MkConnectEnv (Serial.MkDisconnectEnv None) (inr 1%nat) None.

(** A browser whose port chooser is dismissed, and the serial hook after
    a connection the browser granted. *)
Definition portRefused : Serial.ConnectEnv :=
  Serial.MkConnectEnv (Serial.MkDisconnectEnv None)
    (inl (BrowserException "NotFoundError" "No port selected by the user."))
    None.
Definition connectedSerial : Serial.Hook :=
  Serial.operateAll
    [Serial.Connect DataConnection.DEFAULT_SERIAL_CONFIG portOpens]
    (Serial.initial true).

End Sample.

(** * Properties *)

(** ** Strings *)

Module JSFacts.

Lemma dropWhile_split {A} (p : A → bool) (l : list A) :
  ∃ pre, l = pre ++ dropWhile p l ∧ Forall (λ x, p x = true) pre.
Proof.
  induction l as [|x l [pre [E F]]]; simpl.
  - exists []. split; [reflexivity | constructor].
  - destruct (p x) eqn:Px.
    + exists (x :: pre). split; [simpl; congruence | constructor; assumption].
    + exists []. split; [reflexivity | constructor].
Qed.

Lemma dropWhile_head {A} (p : A → bool) (l : list A) x l' :
  dropWhile p l = x :: l' → p x = false.
Proof.
  induction l as [|y l IH]; simpl; [discriminate|].
  destruct (p y) eqn:Py; [exact IH | congruence].
Qed.

(** [trimEnd] cuts a run of white space off the end. *)
Lemma trimEnd_split (s : jsstring) :
  ∃ w, s = trimEnd s ++ w ∧ Forall (λ c, isWhiteSpace c = true) w.
Proof.
  unfold trimEnd.
  destruct (dropWhile_split isWhiteSpace (rev s)) as [pre [E F]].
  exists (rev pre). split.
  - rewrite <- rev_app_distr, <- E, rev_involutive. reflexivity.
  - apply Forall_forall. intros c Hc. apply list_elem_of_In, in_rev in Hc.
    rewrite Forall_forall in F. apply F, list_elem_of_In, Hc.
Qed.

Lemma startsWith_app_l (s w : jsstring) c :
  startsWith s c = true → startsWith (s ++ w) c = true.
Proof. destruct s; simpl; [discriminate | trivial]. Qed.

Lemma startsWith_trim (s : jsstring) c :
  startsWith (trim s) c = true → startsWith (trimStart s) c = true.
Proof.
  unfold trim. intros Hs.
  destruct (trimEnd_split (trimStart s)) as [w [E _]].
  rewrite E. apply startsWith_app_l, Hs.
Qed.

End JSFacts.

(** ** The incoming-line parser *)

Module ParserFacts.

Import App JSFacts.

Lemma isWhiteSpace_isSeparator c : isWhiteSpace c = true → isSeparator c = true.
Proof. unfold isSeparator. intros ->. reflexivity. Qed.

Lemma HASH_not_white c : isWhiteSpace c = true → N.eqb HASH c = false.
Proof.
  intros W. destruct (N.eqb_spec HASH c) as [<-|]; [discriminate W | reflexivity].
Qed.

(** The tokens are what the words say: none is empty, none holds a
    separator, and together they are the units of the string that are not
    separators, in order. *)
Lemma tokens_from_wellformed (s : jsstring) : ∀ cur,
  Forall (λ c, isSeparator c = false) cur →
  Forall (λ t, t ≠ [] ∧ Forall (λ c, isSeparator c = false) t)
         (spec_tokens_from cur s).
Proof.
  induction s as [|c s IH]; intros cur Hcur; simpl.
  - destruct cur; [constructor|].
    constructor; [split; [discriminate | assumption] | constructor].
  - destruct (isSeparator c) eqn:Hc.
    + destruct cur as [|x cur]; [apply IH; constructor|].
      constructor; [split; [discriminate | assumption] | apply IH; constructor].
    + apply IH, Forall_app. split; [assumption|].
      constructor; [assumption | constructor].
Qed.

Lemma tokens_from_concat (s : jsstring) : ∀ cur,
  concat (spec_tokens_from cur s)
  = cur ++ List.filter (λ c, negb (isSeparator c)) s.
Proof.
  induction s as [|c s IH]; intros cur; simpl.
  - destruct cur; simpl; rewrite ?app_nil_r; reflexivity.
  - destruct (isSeparator c); simpl.
    + destruct cur; simpl; rewrite (IH []); reflexivity.
    + rewrite IH, <- app_assoc. reflexivity.
Qed.

Lemma tokens_wellformed (s : jsstring) :
  Forall (λ t, t ≠ [] ∧ Forall (λ c, isSeparator c = false) t) (spec_tokens s)
  ∧ concat (spec_tokens s) = List.filter (λ c, negb (isSeparator c)) s.
Proof.
  split; [apply tokens_from_wellformed; constructor | apply tokens_from_concat].
Qed.

(** Dropping the empty pieces of [split] leaves the tokens. *)
Lemma filter_split_go (s : jsstring) : ∀ cur,
  List.filter Boolean (split_go false cur s) = spec_tokens_from cur s
  ∧ List.filter Boolean (split_go true [] s) = spec_tokens_from [] s.
Proof.
  induction s as [|c s IH]; intros cur; simpl.
  - split; [destruct cur; reflexivity | reflexivity].
  - destruct (isSeparator c).
    + destruct (IH []) as [_ IHrun]. split; [|exact IHrun].
      simpl. rewrite IHrun. destruct cur; reflexivity.
    + split; [apply IH | apply (IH ([] ++ [c]))].
Qed.

Lemma filter_split (s : jsstring) :
  List.filter Boolean (split s) = spec_tokens s.
Proof. apply filter_split_go. Qed.

(** Separators at either end add no token. *)
Lemma tokens_from_app_separators (s w : jsstring) : ∀ cur,
  Forall (λ c, isSeparator c = true) w →
  spec_tokens_from cur (s ++ w) = spec_tokens_from cur s.
Proof.
  induction s as [|c s IH]; intros cur Hw; simpl.
  - revert cur. induction Hw as [|c w Hc _ IHw]; intros cur; simpl.
    + reflexivity.
    + rewrite Hc, (IHw []). destruct cur; reflexivity.
  - rewrite !IH by assumption. reflexivity.
Qed.

Lemma tokens_dropWhile_separators (p : char16 → bool) (s : jsstring) :
  (∀ c, p c = true → isSeparator c = true) →
  spec_tokens (dropWhile p s) = spec_tokens s.
Proof.
  intros Hp. unfold spec_tokens.
  induction s as [|c s IH]; simpl; [reflexivity|].
  destruct (p c) eqn:Pc.
  - rewrite (Hp c Pc). exact IH.
  - reflexivity.
Qed.

Lemma Forall_white_separators (w : jsstring) :
  Forall (λ c, isWhiteSpace c = true) w → Forall (λ c, isSeparator c = true) w.
Proof.
  intros F. eapply Forall_impl; [exact F | exact isWhiteSpace_isSeparator].
Qed.

Lemma tokens_trimEnd (s : jsstring) : spec_tokens (trimEnd s) = spec_tokens s.
Proof.
  destruct (trimEnd_split s) as [w [E F]].
  rewrite E at 2. unfold spec_tokens.
  rewrite tokens_from_app_separators; [reflexivity|].
  apply Forall_white_separators, F.
Qed.

Lemma tokens_trim (s : jsstring) : spec_tokens (trim s) = spec_tokens s.
Proof.
  unfold trim, trimStart. rewrite tokens_trimEnd.
  apply tokens_dropWhile_separators, isWhiteSpace_isSeparator.
Qed.

(** White space after a string does not change which ['#'] lead it. *)
Lemma dropWhile_HASH_app (u w : jsstring) :
  Forall (λ c, isWhiteSpace c = true) w →
  dropWhile (N.eqb HASH) (u ++ w) = dropWhile (N.eqb HASH) u ++ w.
Proof.
  intros Hw. induction u as [|c u IH]; cbn [dropWhile app].
  - destruct Hw as [|c w Hc _]; cbn [dropWhile]; [reflexivity|].
    rewrite (HASH_not_white c Hc). reflexivity.
  - destruct (N.eqb HASH c); [exact IH | reflexivity].
Qed.

(** The names the code reads from a header line are the names of the
    specification. *)
Lemma header_names_refine (line : jsstring) :
  startsWith (trim line) HASH = true →
  List.filter Boolean (split (replace_header_prefix line)) = spec_header_names line.
Proof.
  intros Hh. pose proof (startsWith_trim _ _ Hh) as Hs.
  unfold replace_header_prefix, spec_header_names.
  fold (trimStart line). rewrite Hs, filter_split, tokens_trim.
  rewrite (tokens_dropWhile_separators isWhiteSpace) by apply isWhiteSpace_isSeparator.
  unfold trim. destruct (trimEnd_split (trimStart line)) as [w [E F]].
  rewrite E at 1. rewrite dropWhile_HASH_app by exact F.
  unfold spec_tokens. apply tokens_from_app_separators, Forall_white_separators, F.
Qed.

(** The loop that converts and keeps the finite values is a filter of a
    map. *)
Lemma collect_filter_map (Number : jsstring → float) (parts : list jsstring) :
  collect Number parts = List.filter isFinite (Number <$> parts).
Proof.
  unfold collect.
  enough (G : ∀ acc,
    fold_left (λ values p, let v := Number p in
                           if isFinite v then values ++ [v] else values) parts acc
    = acc ++ List.filter isFinite (Number <$> parts)) by apply (G []).
  induction parts as [|p parts IH]; intros acc; simpl.
  - rewrite app_nil_r. reflexivity.
  - rewrite IH. destruct (isFinite (Number p)); [|reflexivity].
    rewrite <- app_assoc. reflexivity.
Qed.

Section Handler.

Context {S : Type} `{DataStore S}.
Variable Number : jsstring → float.

(** What one run of the handler does, on any store. *)
Lemma handleIncomingLine_run (line : jsstring) (a : State S) :
  handleIncomingLine Number line a =
  (Ok tt,
   MkState line (consoleIncoming a ++ [line])
     (if startsWith (trim line) HASH then
        match spec_header_names line with
        | [] => store a
        | names => setSeries names (store a)
        end
      else
        match spec_values Number line with
        | [] => store a
        | values => append values (store a)
        end)).
Proof.
  unfold handleIncomingLine, spec_values.
  cbn [mbind eff_bind setLastLine consoleStore_addIncoming modify].
  destruct (startsWith (trim line) HASH) eqn:Hh.
  - rewrite (header_names_refine line Hh).
    destruct (spec_header_names line); reflexivity.
  - rewrite filter_split, tokens_trim.
    destruct (spec_tokens line) as [|p parts] eqn:Et; [reflexivity|].
    cbn [length Nat.eqb]. rewrite collect_filter_map.
    destruct (List.filter isFinite (Number <$> p :: parts)); reflexivity.
Qed.

End Handler.

Section HandlerCalls.

Context {S : Type} `{DataStore S}.
Variable Number : jsstring → float.

(** The same run seen through the recording store. *)
Lemma handleIncomingLine_calls (line : jsstring) (a : State S) :
  callsOf (handleIncomingLine Number line) a =
  if startsWith (trim line) HASH then
    match spec_header_names line with
    | [] => []
    | names => [CallSetSeries names]
    end
  else
    match spec_values Number line with
    | [] => []
    | values => [CallAppend values]
    end.
Proof.
  unfold callsOf, exec. rewrite handleIncomingLine_run. cbn [snd store watch].
  destruct (startsWith (trim line) HASH).
  - destruct (spec_header_names line); reflexivity.
  - destruct (spec_values Number line); reflexivity.
Qed.

(** C1: a line whose trimmed text does not start with ['#'] is split on
    white space, comma and tab, every token is converted with [Number],
    the non-finite values are dropped, and [append] is called with the
    finite values that remain, in their order; [append] is called if and
    only if some finite value remains. *)
Theorem data_line_appends_finite_values (line : jsstring) (a : State S) :
  startsWith (trim line) HASH = false →
  let values := List.filter isFinite (Number <$> spec_tokens line) in
  let made := callsOf (handleIncomingLine Number line) a in
  made = match values with [] => [] | _ => [CallAppend values] end
  ∧ ((∃ vs, CallAppend vs ∈ made) ↔ values ≠ [])
  ∧ (∀ vs, CallAppend vs ∈ made → vs = values)
  ∧ store (exec (handleIncomingLine Number line) a)
    = match values with [] => store a | _ => append values (store a) end.
Proof.
  intros Hh values made.
  assert (Em : made = match values with [] => [] | _ => [CallAppend values] end).
  { subst made. rewrite handleIncomingLine_calls, Hh.
    unfold spec_values. fold values. destruct values; reflexivity. }
  split; [exact Em|]. rewrite Em. repeat split.
  - intros [vs Hin] Ev. rewrite Ev in Hin. inversion Hin.
  - intros Hne. exists values. destruct values; [congruence | left].
  - intros vs Hin. destruct values; [inversion Hin|].
    apply list_elem_of_singleton in Hin. congruence.
  - unfold exec. rewrite handleIncomingLine_run, Hh.
    unfold spec_values. fold values. destruct values; reflexivity.
Qed.

(** C3: a line whose trimmed text starts with ['#'] has its leading
    ['#'] units and the white space around them removed and the rest
    split on white space, comma and tab into names; [setSeries] is called
    with these names if and only if there is one, and [append] is not
    called. *)
Theorem header_line_sets_series (line : jsstring) (a : State S) :
  startsWith (trim line) HASH = true →
  let names := spec_header_names line in
  let made := callsOf (handleIncomingLine Number line) a in
  made = match names with [] => [] | _ => [CallSetSeries names] end
  ∧ ((∃ ns, CallSetSeries ns ∈ made) ↔ names ≠ [])
  ∧ (∀ ns, CallSetSeries ns ∈ made → ns = names ∧ ns ≠ [])
  ∧ (∀ vs, CallAppend vs ∉ made).
Proof.
  intros Hh names made.
  assert (Em : made = match names with [] => [] | _ => [CallSetSeries names] end).
  { subst made. rewrite handleIncomingLine_calls, Hh.
    fold names. destruct names; reflexivity. }
  split; [exact Em|]. rewrite Em. repeat split.
  - intros [ns Hin] En. rewrite En in Hin. inversion Hin.
  - intros Hne. exists names. destruct names; [congruence | left].
  - rename select (_ ∈ _) into Hin. destruct names; [inversion Hin|].
    apply list_elem_of_singleton in Hin. congruence.
  - rename select (_ ∈ _) into Hin.
    intros ->. destruct names; [inversion Hin|].
    apply list_elem_of_singleton in Hin. discriminate.
  - intros vs Hin. destruct names; [inversion Hin|].
    apply list_elem_of_singleton in Hin. discriminate.
Qed.

Lemma tokens_of_separators (w : jsstring) :
  Forall (λ c, isSeparator c = true) w → spec_tokens w = [].
Proof.
  intros Hw. unfold spec_tokens.
  rewrite <- (app_nil_l w), tokens_from_app_separators by assumption.
  reflexivity.
Qed.

Lemma trim_of_white (w : jsstring) :
  Forall (λ c, isWhiteSpace c = true) w → trim w = [].
Proof.
  intros Hw. unfold trim, trimStart.
  assert (E : dropWhile isWhiteSpace w = []).
  { induction Hw as [|c w Hc _ IH]; simpl; [reflexivity | rewrite Hc; exact IH]. }
  rewrite E. reflexivity.
Qed.

(** C4: the handler raises no error on any line; a line that is not a
    header and gives no finite value (an empty line, a line of white
    space, a line of tokens that are not numbers) makes no call to
    [append] nor to [setSeries] and leaves the store as it was. *)
Theorem line_without_values_is_ignored (line : jsstring) (a : State S) :
  outcome (handleIncomingLine Number line) a = Ok tt
  ∧ (startsWith (trim line) HASH = false →
     List.filter isFinite (Number <$> spec_tokens line) = [] →
     callsOf (handleIncomingLine Number line) a = []
     ∧ store (exec (handleIncomingLine Number line) a) = store a)
  ∧ (Forall (λ c, isWhiteSpace c = true) line →
     startsWith (trim line) HASH = false
     ∧ List.filter isFinite (Number <$> spec_tokens line) = [])
  ∧ (Forall (λ p, isFinite (Number p) = false) (spec_tokens line) →
     List.filter isFinite (Number <$> spec_tokens line) = []).
Proof.
  split; [|split; [|split]].
  - unfold outcome. rewrite handleIncomingLine_run. reflexivity.
  - intros Hh Hv. split.
    + rewrite handleIncomingLine_calls, Hh. unfold spec_values. rewrite Hv.
      reflexivity.
    + unfold exec. rewrite handleIncomingLine_run, Hh. unfold spec_values.
      rewrite Hv. reflexivity.
  - intros Hw. split.
    + rewrite trim_of_white by assumption. reflexivity.
    + rewrite tokens_of_separators; [reflexivity|].
      apply Forall_white_separators. assumption.
  - intros Hn. induction Hn as [|p ps Hp _ IH]; simpl; [reflexivity|].
    rewrite Hp. exact IH.
Qed.

End HandlerCalls.

Import Sample.

Example split_keeps_empty_ends :
  split (lit ",a  b,") = [lit ""; lit "a"; lit "b"; lit ""].
Proof. reflexivity. Qed.

Example tokens_of_data_line :
  spec_tokens (lit " 12,abc 7 ") = [lit "12"; lit "abc"; lit "7"].
Proof. reflexivity. Qed.

Example header_names_of_line :
  spec_header_names (lit " ## x, y ") = [lit "x"; lit "y"].
Proof. reflexivity. Qed.

(** The data line [" 12,abc 7 "] appends the row [12, 7]. *)
Lemma data_line_witness :
  startsWith (trim (lit " 12,abc 7 ")) HASH = false
  ∧ callsOf (handleIncomingLine NumberOfDigits (lit " 12,abc 7 ")) emptyApp
    = [CallAppend [12%float; 7%float]].
Proof.
  split; [reflexivity|].
  exact (proj1 (data_line_appends_finite_values
                  NumberOfDigits (lit " 12,abc 7 ") emptyApp eq_refl)).
Defined.

(** The header line [" ## x, y "] declares the channels [x] and [y]. *)
Lemma header_line_witness :
  startsWith (trim (lit " ## x, y ")) HASH = true
  ∧ callsOf (handleIncomingLine NumberOfDigits (lit " ## x, y ")) emptyApp
    = [CallSetSeries [lit "x"; lit "y"]].
Proof.
  split; [reflexivity|].
  exact (proj1 (header_line_sets_series
                  NumberOfDigits (lit " ## x, y ") emptyApp eq_refl)).
Defined.

(** A line of words is ignored, and so is a header without a name. *)
Example words_are_ignored :
  callsOf (handleIncomingLine NumberOfDigits (lit "hello, world")) emptyApp = [].
Proof. reflexivity. Qed.

Example bare_header_is_ignored :
  callsOf (handleIncomingLine NumberOfDigits (lit " # ")) emptyApp = [].
Proof. reflexivity. Qed.

End ParserFacts.


(** ** The pan and freeze handlers *)

Module GestureFacts.

Import App.

(** The store of the specification keeps its own contract. *)
Lemma spec_store_laws : DataStoreLaws SpecStore.Store SpecStore.momentumActive.
Proof. split; reflexivity. Qed.

Section Handlers.

Context {S : Type} `{DataStore S}.

Lemma onPanStart_run (a : State S) :
  onPanStart a =
  (Ok tt,
   MkState (lastLine a) (consoleIncoming a)
     (let s := stopMomentum (store a) in
      if getFrozen s then s else setFrozen true s)).
Proof.
  unfold onPanStart, mbind, eff_bind, onStore, fromStore, modify, gets, when.
  simpl.
  destruct (getFrozen (stopMomentum (store a))); reflexivity.
Qed.

Lemma onToggleFrozen_run (a : State S) :
  onToggleFrozen a =
  (Ok tt,
   MkState (lastLine a) (consoleIncoming a)
     (let s := stopMomentum (store a) in
      if getFrozen s then setFrozen false (setViewPortCursor 0%float s)
      else setFrozen true s)).
Proof.
  unfold onToggleFrozen, mbind, eff_bind, onStore, fromStore, modify, gets.
  simpl.
  destruct (getFrozen (stopMomentum (store a))); reflexivity.
Qed.

End Handlers.

Section Claims.

Context {S : Type} `{DataStore S}.

(** C6: a pan by [d] calls [setViewPortCursor] once, with the cursor the
    store reports minus [d], and the end of a pan at velocity [v] calls
    [startMomentum] once, with [-v]: both enter with the same sign. *)
Theorem pan_delta_and_end_negate (d v : float) (a : State S) :
  let cursor := getViewPortCursor (store a) in
  callsOf (onPanDelta d) a = [CallSetViewPortCursor (cursor - d)%float]
  ∧ store (exec (onPanDelta d) a) = setViewPortCursor (cursor - d)%float (store a)
  ∧ callsOf (onPanEnd v) a = [CallStartMomentum (- v)%float]
  ∧ store (exec (onPanEnd v) a) = startMomentum (- v)%float (store a)
  ∧ outcome (onPanDelta d) a = Ok tt ∧ outcome (onPanEnd v) a = Ok tt.
Proof.
  intros cursor. unfold callsOf, exec, outcome, onPanDelta, onPanEnd.
  cbn [mbind eff_bind fromStore onStore gets modify fst snd store watch].
  cbn [getViewPortCursor setViewPortCursor startMomentum recorder_store
       recorded inner calls app].
  subst cursor. repeat split.
Qed.

Variable momentumActive : S → bool.
Context `{!DataStoreLaws S momentumActive}.

(** C5: a pan start stops the momentum first and then, when the viewport
    is not frozen, sets frozen to true; when the viewport is frozen
    already it makes no other call, and the frozen flag and the cursor
    stay as they were. *)
Theorem pan_start_stops_momentum_then_freezes (a : State S) :
  let made := callsOf onPanStart a in
  let s' := store (exec onPanStart a) in
  made = CallStopMomentum
           :: (if getFrozen (store a) then [] else [CallSetFrozen true])
  ∧ momentumActive s' = false
  ∧ getFrozen s' = true
  ∧ (getFrozen (store a) = true →
     s' = stopMomentum (store a)
     ∧ getFrozen s' = getFrozen (store a)
     ∧ getViewPortCursor s' = getViewPortCursor (store a)).
Proof.
  intros made s'. subst made s'. unfold callsOf, exec.
  rewrite !onPanStart_run. cbn [snd store watch].
  cbn [getFrozen stopMomentum setFrozen recorder_store recorded inner calls].
  rewrite stopMomentum_frozen.
  destruct (getFrozen (store a)) eqn:Hf; cbn [calls app].
  - repeat split.
    + apply stopMomentum_active.
    + rewrite stopMomentum_frozen. exact Hf.
    + rewrite stopMomentum_frozen. exact Hf.
    + apply stopMomentum_cursor.
  - repeat split.
    + rewrite setFrozen_true_active. apply stopMomentum_active.
    + apply setFrozen_frozen.
    + discriminate.
    + discriminate.
    + discriminate.
Qed.

(** C7: the freeze toggle, when the viewport is frozen, stops the
    momentum, sets the cursor to 0 and sets frozen to false, which leaves
    the viewport live, at the live edge and with no momentum; when the
    viewport is live it stops the momentum and sets frozen to true, and
    the cursor stays as it was. *)
Theorem toggle_frozen_resumes_or_freezes (a : State S) :
  let made := callsOf onToggleFrozen a in
  let s' := store (exec onToggleFrozen a) in
  (getFrozen (store a) = true →
   made = [CallStopMomentum; CallSetViewPortCursor 0%float; CallSetFrozen false]
   ∧ s' = setFrozen false (setViewPortCursor 0%float (stopMomentum (store a)))
   ∧ getFrozen s' = false
   ∧ getViewPortCursor s' = 0%float
   ∧ momentumActive s' = false)
  ∧ (getFrozen (store a) = false →
     made = [CallStopMomentum; CallSetFrozen true]
     ∧ s' = setFrozen true (stopMomentum (store a))
     ∧ getFrozen s' = true
     ∧ getViewPortCursor s' = getViewPortCursor (store a)
     ∧ momentumActive s' = false).
Proof.
  intros made s'. subst made s'. unfold callsOf, exec.
  rewrite !onToggleFrozen_run. cbn [snd store watch].
  cbn [getFrozen stopMomentum setFrozen setViewPortCursor recorder_store
       recorded inner calls].
  rewrite stopMomentum_frozen.
  split; intros Hf; rewrite Hf; cbn [calls app].
  - split; [reflexivity|]. split; [reflexivity|].
    split; [apply setFrozen_frozen|].
    split; [apply setFrozen_false_cursor | apply setFrozen_false_active].
  - split; [reflexivity|]. split; [reflexivity|].
    split; [apply setFrozen_frozen|]. split.
    + rewrite setFrozen_true_cursor. apply stopMomentum_cursor.
    + rewrite setFrozen_true_active. apply stopMomentum_active.
Qed.

End Claims.

Import Sample.

Example frozenStore_state :
  SpecStore.frozen frozenStore = true
  ∧ SpecStore.cursor frozenStore = 1%float
  ∧ SpecStore.momentumActive frozenStore = true.
Proof. repeat split. Qed.

(** A pan start on the live store freezes it. *)
Lemma pan_start_witness :
  callsOf onPanStart emptyApp = [CallStopMomentum; CallSetFrozen true]
  ∧ SpecStore.frozen (store (exec onPanStart emptyApp)) = true.
Proof.
  pose proof (pan_start_stops_momentum_then_freezes
                SpecStore.momentumActive
                (DataStoreLaws0 := spec_store_laws) emptyApp) as P.
  split; [exact (proj1 P) | exact (proj1 (proj2 (proj2 P)))].
Defined.

(** The toggle on the frozen store resumes live mode at the live edge. *)
Lemma toggle_frozen_witness :
  SpecStore.frozen (store frozenApp) = true
  ∧ callsOf onToggleFrozen frozenApp
    = [CallStopMomentum; CallSetViewPortCursor 0%float; CallSetFrozen false]
  ∧ SpecStore.cursor (store (exec onToggleFrozen frozenApp)) = 0%float
  ∧ SpecStore.momentumActive (store (exec onToggleFrozen frozenApp)) = false.
Proof.
  pose proof (proj1 (toggle_frozen_resumes_or_freezes
                SpecStore.momentumActive
                (DataStoreLaws0 := spec_store_laws) frozenApp)
                eq_refl) as P.
  split; [reflexivity|]. split; [exact (proj1 P)|].
  split; [exact (proj1 (proj2 (proj2 (proj2 P))))
         | exact (proj2 (proj2 (proj2 (proj2 P))))].
Defined.

End GestureFacts.

(** ** The ring buffer of the specification *)

Module StoreFacts.

Import SpecStore.

Lemma mod_differs (C i T : nat) :
  0 < C → i < T → T < i + C → i mod C ≠ T mod C.
Proof.
  intros HC Hi HT E.
  pose proof (Nat.div_mod_eq i C) as Di.
  pose proof (Nat.div_mod_eq T C) as DT.
  rewrite E in Di.
  destruct (Nat.le_gt_cases (T / C) (i / C)) as [Hle|Hgt].
  - pose proof (Nat.mul_le_mono_l _ _ C Hle). lia.
  - pose proof (Nat.mul_le_mono_l _ _ C Hgt) as M.
    rewrite Nat.mul_succ_r in M. lia.
Qed.

Lemma holds_init (names : list jsstring) (C w : nat) :
  Holds (length names) C [] (init names C w).
Proof.
  split; simpl; try reflexivity.
  - intros _. symmetry. apply Nat.Div0.mod_0_l.
  - apply length_replicate.
  - apply Forall_replicate, length_replicate.
  - constructor.
  - intros i k [_ Hi]. lia.
Qed.

Lemma holds_append (n C : nat) acc s (r : list float) :
  Holds n C acc s → length r = n → Holds n C (acc ++ [r]) (append r s).
Proof.
  intros [Hn HC HT Hw Hch Hsz Hrows Hcells] Hr.
  unfold append. rewrite Hn, Hr, Nat.eqb_refl.
  split; simpl; rewrite ?length_app; simpl; try assumption.
  - lia.
  - intros HCpos. rewrite (Hw HCpos), HC.
    rewrite Nat.Div0.add_mod_idemp_l. reflexivity.
  - rewrite length_zip_with. lia.
  - apply Forall_forall. intros buf Hin.
    apply list_elem_of_lookup in Hin as [k Hk].
    apply lookup_zip_with_Some in Hk as (b & v & -> & Hb & _).
    rewrite length_insert. rewrite Forall_forall in Hsz.
    apply Hsz. eapply list_elem_of_lookup_2, Hb.
  - apply Forall_app. split; [assumption | repeat constructor; assumption].
  - intros i k Hi Hk.
    destruct (lookup_lt_is_Some_2 (buffers s) k ltac:(lia)) as [buf Hbuf].
    destruct (lookup_lt_is_Some_2 r k ltac:(lia)) as [v Hv].
    assert (Hlen : length buf = C).
    { rewrite Forall_forall in Hsz.
      apply Hsz. eapply list_elem_of_lookup_2, Hbuf. }
    assert (HCpos : 0 < C) by lia.
    rewrite lookup_zip_with, Hbuf, Hv. simpl.
    rewrite (Hw HCpos).
    destruct (decide (i = length acc)) as [->|Hne].
    + rewrite list_lookup_insert_eq
        by (rewrite Hlen; apply Nat.mod_upper_bound; lia).
      rewrite list_lookup_middle by reflexivity. simpl. symmetry. exact Hv.
    + rewrite list_lookup_insert_ne
        by (apply not_eq_sym, mod_differs; lia).
      rewrite lookup_app_l by lia.
      specialize (Hcells i k ltac:(lia) Hk).
      rewrite Hbuf in Hcells. exact Hcells.
Qed.

Lemma holds_reject (n C : nat) acc s (r : list float) :
  Holds n C acc s → length r ≠ n → append r s = s.
Proof.
  intros [Hn _ _ _ _ _ _ _] Hr. unfold append. rewrite Hn.
  destruct (Nat.eqb_spec (length r) n); [contradiction | reflexivity].
Qed.

Lemma holds_appendAll (n C : nat) (rows : list (list float)) : ∀ acc s,
  Holds n C acc s → Holds n C (acc ++ accepted n rows) (appendAll rows s).
Proof.
  induction rows as [|r rows IH]; intros acc s Hs; simpl.
  - rewrite app_nil_r. exact Hs.
  - destruct (Nat.eqb_spec (length r) n) as [Hr|Hr].
    + replace (acc ++ r :: accepted n rows)
        with ((acc ++ [r]) ++ accepted n rows)
        by (rewrite <- app_assoc; reflexivity).
      apply IH, holds_append; assumption.
    + rewrite (holds_reject n C acc s r Hs Hr). apply IH, Hs.
Qed.

(** In a store that holds, the row read at a retained index is the row
    accepted at that index. *)
Lemma holds_rowAt (n C : nat) acc s (i : nat) :
  Holds n C acc s → length acc - C ≤ i < length acc → rowAt s i = acc !! i.
Proof.
  intros [Hn HC HT Hw Hch Hsz Hrows Hcells] Hi.
  destruct (lookup_lt_is_Some_2 acc i ltac:(lia)) as [row Hrow].
  rewrite Hrow. unfold rowAt. apply mapM_Some.
  assert (Hlen : length row = n).
  { rewrite Forall_forall in Hrows.
    apply Hrows. eapply list_elem_of_lookup_2, Hrow. }
  apply Forall2_same_length_lookup_2; [lia|].
  intros k buf v Hbuf Hv.
  pose proof (lookup_lt_Some _ _ _ Hv) as Hk.
  specialize (Hcells i k Hi ltac:(lia)).
  rewrite Hbuf, Hrow in Hcells. simpl in Hcells.
  rewrite HC. congruence.
Qed.

Lemma holds_retainedRows (n C : nat) acc s :
  Holds n C acc s → retainedRows s = Some <$> drop (length acc - C) acc.
Proof.
  intros Hs. pose proof Hs as [Hn HC HT Hw Hch Hsz Hrows Hcells].
  unfold retainedRows, retainedCount, oldestIndex. rewrite HT, HC.
  apply list_eq. intros j.
  rewrite !list_lookup_fmap, lookup_drop.
  destruct (decide (j < length acc `min` C)) as [Hj|Hj].
  - rewrite lookup_seq_lt by exact Hj. simpl.
    rewrite (holds_rowAt n C acc s) by (assumption || lia).
    destruct (lookup_lt_is_Some_2 acc (length acc - C + j) ltac:(lia))
      as [row ->].
    reflexivity.
  - rewrite lookup_seq_ge by lia.
    rewrite lookup_ge_None_2 by lia. reflexivity.
Qed.

Lemma holds_retainedOfChannel (n C : nat) acc s (k : nat) :
  Holds n C acc s → k < n →
  retainedOfChannel s k = (.!! k) <$> drop (length acc - C) acc.
Proof.
  intros [Hn HC HT Hw Hch Hsz Hrows Hcells] Hk.
  unfold retainedOfChannel, retainedCount, oldestIndex. rewrite HT, HC.
  apply list_eq. intros j.
  rewrite !list_lookup_fmap, lookup_drop.
  destruct (decide (j < length acc `min` C)) as [Hj|Hj].
  - rewrite lookup_seq_lt by exact Hj. simpl.
    rewrite Hcells by lia.
    destruct (lookup_lt_is_Some_2 acc (length acc - C + j) ltac:(lia))
      as [row ->].
    reflexivity.
  - rewrite lookup_seq_ge by lia.
    rewrite (lookup_ge_None_2 acc) by lia. reflexivity.
Qed.

(** C2: after any sequence of [append] calls on a store that was empty,
    with [T] the rows accepted and [C] the capacity, every channel holds
    [min(T, C)] rows, the rows held are the last [min(T, C)] accepted
    ones, in order, and the oldest of them has global index
    [max(0, T - C)]. *)
Theorem ring_buffer_retains_most_recent
    (names : list jsstring) (C w : nat) (rows : list (list float)) :
  let s := appendAll rows (init names C w) in
  let acc := accepted (length names) rows in
  let T := total s in
  T = length acc
  ∧ length (retainedRows s) = T `min` C
  ∧ (∀ k, k < length names → length (retainedOfChannel s k) = T `min` C)
  ∧ retainedRows s = Some <$> drop (T - T `min` C) acc
  ∧ (∀ k, k < length names →
       retainedOfChannel s k = (.!! k) <$> drop (T - T `min` C) acc)
  ∧ Z.of_nat (oldestIndex s) = Z.max 0 (Z.of_nat T - Z.of_nat C)
  ∧ (∀ j, j < T `min` C → retainedRows s !! j = Some (acc !! (oldestIndex s + j))).
Proof.
  intros s acc T.
  pose proof (holds_appendAll (length names) C rows [] (init names C w)
                (holds_init names C w)) as Hs.
  simpl in Hs. fold s acc in Hs.
  pose proof (holds_total _ _ _ _ Hs) as HT. fold T in HT.
  pose proof (holds_capacity _ _ _ _ Hs) as HC.
  assert (Hold : T - T `min` C = length acc - C) by lia.
  split; [exact HT|].
  split; [unfold retainedRows, retainedCount;
          rewrite length_fmap, length_seq, HC; reflexivity|].
  split; [intros k _; unfold retainedOfChannel, retainedCount;
          rewrite length_fmap, length_seq, HC; reflexivity|].
  split; [rewrite Hold; apply (holds_retainedRows _ _ _ _ Hs)|].
  split; [intros k Hk; rewrite Hold;
          apply (holds_retainedOfChannel _ _ _ _ _ Hs Hk)|].
  split; [unfold oldestIndex; rewrite HC; fold T; lia|].
  intros j Hj. rewrite (holds_retainedRows _ _ _ _ Hs).
  rewrite list_lookup_fmap, lookup_drop.
  unfold oldestIndex. rewrite HC. fold T. rewrite <- HT.
  destruct (lookup_lt_is_Some_2 acc (T - C + j) ltac:(lia)) as [row ->].
  reflexivity.
Qed.

Import Sample.

(** The scenario of the specification: capacity 5, one channel, the rows
    1 to 6 and one row of the wrong length; the rows 2 to 6 are held. *)
Example six_rows_in_five_slots :
  let s := appendAll
             [[1%float]; [2%float]; [3%float]; [0%float; 0%float]; [4%float];
              [5%float]; [6%float]]
             (init [lit "a"] 5 5) in
  total s = 6
  ∧ buffers s = [[6%float; 2%float; 3%float; 4%float; 5%float]]
  ∧ oldestIndex s = 1
  ∧ retainedRows s
    = [Some [2%float]; Some [3%float]; Some [4%float]; Some [5%float];
       Some [6%float]].
Proof. repeat split. Qed.

End StoreFacts.

(** ** The serial transport *)

Module SerialFacts.

Import Serial.

Lemma drain_unfold {St} (ref : option (jsstring → Eff St unit))
    (buffer : jsstring) (st : St) :
  drain ref buffer st =
  match indexOf buffer LF with
  | None => (Ok tt, (buffer, st))
  | Some index =>
      match callHandler ref (replace_trailing_CR (sliceTo buffer index)) st with
      | (Ok _, st') => drain ref (sliceFrom buffer (index + 1)) st'
      | (Throw e, st') => (Throw e, (sliceFrom buffer (index + 1), st'))
      end
  end.
Proof.
  funelim (drain ref buffer st).
  - rewrite found. reflexivity.
  - match goal with E : indexOf _ _ = None |- _ => rewrite E end. reflexivity.
Qed.

(** Where the first newline is, in terms of the segments. *)
Lemma segments_no_newline (s : jsstring) : ∀ cur,
  indexOf s LF = None → spec_segments cur s = ([], cur ++ s).
Proof.
  induction s as [|c s IH]; intros cur Hn; simpl in *.
  - rewrite app_nil_r. reflexivity.
  - destruct (c =? LF)%N; [discriminate|].
    destruct (indexOf s LF); [discriminate|].
    rewrite IH by reflexivity. rewrite <- app_assoc. reflexivity.
Qed.

Lemma segments_first_newline (s : jsstring) : ∀ cur index,
  indexOf s LF = Some index →
  spec_segments cur s =
  ((cur ++ sliceTo s index) :: fst (spec_segments [] (sliceFrom s (index + 1))),
   snd (spec_segments [] (sliceFrom s (index + 1)))).
Proof.
  induction s as [|c s IH]; intros cur index Hi; simpl in *; [discriminate|].
  destruct (c =? LF)%N.
  - injection Hi as <-. simpl. rewrite app_nil_r.
    destruct (spec_segments [] s). reflexivity.
  - destruct (indexOf s LF) as [i|]; [|discriminate].
    injection Hi as <-. simpl.
    rewrite (IH (cur ++ [c]) i eq_refl), <- app_assoc. reflexivity.
Qed.

Lemma indexOf_lt (s : jsstring) c index :
  indexOf s c = Some index → index < length s.
Proof.
  revert index. induction s as [|x s IH]; intros index; simpl; [discriminate|].
  destruct (x =? c)%N.
  - intros [= <-]. lia.
  - destruct (indexOf s c) as [i|]; [|discriminate].
    intros [= <-]. specialize (IH i eq_refl). lia.
Qed.

Section LineHandler.

Context {St : Type} (handler : jsstring → Eff St unit).
Hypothesis handler_returns : ∀ line st, outcome (handler line) st = Ok tt.

Lemma handler_run (line : jsstring) (st : St) :
  handler line st = (Ok tt, exec (handler line) st).
Proof.
  specialize (handler_returns line st). unfold outcome, exec in *.
  destruct (handler line st) as [r st']. cbn in *. congruence.
Qed.

(** The inner loop hands every complete line of the buffer to the
    handler and keeps what follows the last newline. *)
Lemma drain_handler (buffer : jsstring) : ∀ st,
  drain (Some handler) buffer st =
  (Ok tt,
   (snd (spec_segments [] buffer), handled handler (linesOf [] buffer) st)).
Proof.
  remember (length buffer) as n eqn:Hn. revert buffer Hn.
  induction n as [n IH] using lt_wf_ind. intros buffer Hn st.
  rewrite drain_unfold. unfold linesOf.
  destruct (indexOf buffer LF) as [index|] eqn:Hi.
  - cbn [callHandler]. rewrite handler_run.
    pose proof (indexOf_lt _ _ _ Hi) as Hlt.
    rewrite (IH (length (sliceFrom buffer (index + 1))));
      [| unfold sliceFrom; rewrite length_drop; lia | reflexivity].
    rewrite (segments_first_newline buffer [] index Hi). reflexivity.
  - rewrite segments_no_newline by exact Hi. reflexivity.
Qed.

End LineHandler.


(** The segments of a stream read after a buffer that holds no newline. *)
Lemma segments_app_buffer (buffer s : jsstring) : ∀ cur,
  LF ∉ buffer →
  spec_segments cur (buffer ++ s) = spec_segments (cur ++ buffer) s.
Proof.
  induction buffer as [|c buffer IH]; intros cur Hn; simpl.
  - rewrite app_nil_r. reflexivity.
  - apply not_elem_of_cons in Hn as [Hc Hn].
    destruct (N.eqb_spec c LF); [congruence|].
    rewrite IH by exact Hn. rewrite <- app_assoc. reflexivity.
Qed.

Lemma segments_app (s t : jsstring) : ∀ cur,
  spec_segments cur (s ++ t) =
  (fst (spec_segments cur s) ++ fst (spec_segments (snd (spec_segments cur s)) t),
   snd (spec_segments (snd (spec_segments cur s)) t)).
Proof.
  induction s as [|c s IH]; intros cur; simpl.
  - destruct (spec_segments cur t). reflexivity.
  - destruct (c =? LF)%N.
    + rewrite (IH []). destruct (spec_segments [] s) as [segs rest]. reflexivity.
    + apply IH.
Qed.

(** The segments and the rest put the stream together again, and none of
    them holds a newline. *)
Lemma segments_concat (s : jsstring) : ∀ cur,
  cur ++ s =
  concat ((λ seg, seg ++ [LF]) <$> fst (spec_segments cur s))
    ++ snd (spec_segments cur s).
Proof.
  induction s as [|c s IH]; intros cur; simpl.
  - rewrite app_nil_r. reflexivity.
  - destruct (N.eqb_spec c LF) as [->|Hne].
    + specialize (IH []). destruct (spec_segments [] s) as [segs rest].
      simpl in *. rewrite IH at 1. rewrite <- !app_assoc. reflexivity.
    + rewrite <- IH, <- app_assoc. reflexivity.
Qed.

Lemma segments_without_newline (s : jsstring) : ∀ cur,
  LF ∉ cur →
  Forall (λ seg, LF ∉ seg) (fst (spec_segments cur s))
  ∧ LF ∉ snd (spec_segments cur s).
Proof.
  induction s as [|c s IH]; intros cur Hn; simpl.
  - split; [constructor | exact Hn].
  - destruct (N.eqb_spec c LF) as [->|Hne].
    + destruct (IH [] ltac:(apply not_elem_of_nil)) as [Hs Hr].
      destruct (spec_segments [] s) as [segs rest]. simpl in *.
      split; [constructor; assumption | exact Hr].
    + apply IH. rewrite elem_of_app, list_elem_of_singleton.
      intros [Hin | E]; [exact (Hn Hin) | congruence].
Qed.

Lemma segments_count (s : jsstring) : ∀ cur,
  length (fst (spec_segments cur s)) = length (List.filter (N.eqb LF) s).
Proof.
  induction s as [|c s IH]; intros cur; cbn [spec_segments List.filter];
    [reflexivity|].
  rewrite (N.eqb_sym LF c). destruct (c =? LF)%N.
  - specialize (IH []). destruct (spec_segments [] s).
    cbn [fst length] in *. rewrite IH. reflexivity.
  - apply IH.
Qed.

Lemma replace_trailing_CR_strips (segment : jsstring) :
  StripsOneCR segment (replace_trailing_CR segment).
Proof.
  unfold StripsOneCR, replace_trailing_CR.
  destruct (rev segment) as [|c r] eqn:Er.
  - right. split; [reflexivity|].
    apply (f_equal (@rev _)) in Er. rewrite rev_involutive in Er.
    rewrite Er. discriminate.
  - assert (Es : segment = rev r ++ [c]).
    { apply (f_equal (@rev _)) in Er. rewrite rev_involutive in Er.
      exact Er. }
    destruct (N.eqb_spec c CR) as [->|Hne].
    + left. exact Es.
    + right. split; [reflexivity|].
      rewrite Es, last_snoc. congruence.
Qed.

Lemma handled_app {St} (handler : jsstring → Eff St unit)
    (l1 l2 : list jsstring) (st : St) :
  handled handler (l1 ++ l2) st = handled handler l2 (handled handler l1 st).
Proof. apply foldl_app. Qed.

Lemma handled_noteLine (lines : list jsstring) : ∀ seen,
  handled noteLine lines seen = seen ++ lines.
Proof.
  induction lines as [|l lines IH]; intros seen; cbn.
  - rewrite app_nil_r. reflexivity.
  - unfold handled in IH. rewrite IH, <- app_assoc. reflexivity.
Qed.

(** The whole loop, with a handler that does not throw. *)
Lemma readLoop_body_handler {St} (handler : jsstring → Eff St unit)
    (reads : list ReadResult) :
  (∀ line st, outcome (handler line) st = Ok tt) →
  ∀ buffer st, LF ∉ buffer →
  snd (readLoop_body (Some handler) reads (buffer, st)) =
  (snd (spec_segments buffer (concat (chunksRead reads))),
   handled handler (linesOf buffer (concat (chunksRead reads))) st).
Proof.
  intros Hret.
  induction reads as [|[value| |r] reads IH]; intros buffer st Hn;
    cbn [readLoop_body chunksRead concat]; try reflexivity.
  unfold mbind, eff_bind, when, modify, drainBuffer.
  destruct value as [|c value]; cbn [Boolean mret eff_ret].
  - apply IH, Hn.
  - rewrite (drain_handler handler Hret). unfold linesOf.
    rewrite (segments_app_buffer buffer (c :: value) [] Hn).
    change ([] ++ buffer) with buffer.
    rewrite IH by (apply segments_without_newline, Hn).
    rewrite (segments_app (c :: value) (concat (chunksRead reads)) buffer).
    cbn [fst snd]. unfold linesOf. rewrite fmap_app, handled_app. reflexivity.
Qed.

Lemma exec_try_catch_ignore {St} (m : Eff St unit) (s : St) :
  exec (try_catch m (λ _, mret tt)) s = snd (m s).
Proof. unfold exec, try_catch. destruct (m s) as [[u|e] s']; reflexivity. Qed.

Lemma readLoop_noteLine (reads : list ReadResult) :
  readLoop (Some noteLine) reads [] =
  (snd (spec_segments [] (concat (chunksRead reads))),
   replace_trailing_CR <$> fst (spec_segments [] (concat (chunksRead reads)))).
Proof.
  unfold readLoop. rewrite exec_try_catch_ignore.
  rewrite (readLoop_body_handler noteLine reads) by (reflexivity || apply not_elem_of_nil).
  rewrite handled_noteLine. reflexivity.
Qed.

(** With any handler that does not throw, the loop leaves the state the
    handler reaches over the same lines, in the same order. *)
Lemma readLoop_handler {St} (handler : jsstring → Eff St unit)
    (reads : list ReadResult) (st : St) :
  (∀ line st, outcome (handler line) st = Ok tt) →
  readLoop (Some handler) reads st =
  (snd (spec_segments [] (concat (chunksRead reads))),
   handled handler (linesOf [] (concat (chunksRead reads))) st).
Proof.
  intros Hret. unfold readLoop. rewrite exec_try_catch_ignore.
  apply (readLoop_body_handler handler reads Hret), not_elem_of_nil.
Qed.

(** So the parser of [App.tsx], which does not throw, is run on every
    complete line of the port. *)
Lemma readLoop_feeds_parser {S} `{DataStore S} (Number : jsstring → float)
    (reads : list ReadResult) (a : App.State S) :
  snd (readLoop (Some (App.handleIncomingLine Number)) reads a) =
  handled (App.handleIncomingLine Number)
    (linesOf [] (concat (chunksRead reads))) a.
Proof.
  rewrite readLoop_handler; [reflexivity|].
  intros line st. unfold outcome.
  rewrite ParserFacts.handleIncomingLine_run. reflexivity.
Qed.

(** C10: the read loop calls the line handler once for every segment of
    the stream that a newline ends, in the order of the stream, with the
    segment less its newline and less one carriage return at its end if
    there is one; what follows the last newline stays in the buffer and
    is not delivered. *)
Theorem read_loop_delivers_each_complete_line_once (reads : list ReadResult) :
  let stream := concat (chunksRead reads) in
  let final := readLoop (Some noteLine) reads [] in
  let buffer := fst final in
  let delivered := snd final in
  ∃ segments,
    stream = concat ((λ seg, seg ++ [LF]) <$> segments) ++ buffer
    ∧ Forall (λ seg, LF ∉ seg) segments
    ∧ (LF ∉ buffer)
    ∧ Forall2 StripsOneCR segments delivered
    ∧ delivered = replace_trailing_CR <$> segments
    ∧ length delivered = length (List.filter (N.eqb LF) stream).
Proof.
  intros stream final buffer delivered.
  subst buffer delivered final. rewrite readLoop_noteLine. fold stream.
  cbn [fst snd].
  exists (fst (spec_segments [] stream)).
  destruct (segments_without_newline stream [] ltac:(apply not_elem_of_nil))
    as [Hsegs Hrest].
  split; [exact (segments_concat stream [])|].
  split; [exact Hsegs|]. split; [exact Hrest|].
  split; [|split; [reflexivity|]].
  - apply Forall2_fmap_r, Forall_Forall2_diag, Forall_forall.
    intros seg _. apply replace_trailing_CR_strips.
  - rewrite length_fmap. apply segments_count.
Qed.

(** Two chunks that cut a line in two: ["1,2\r\n3"] then ["4\n\nx"]. *)
Example two_chunks :
  readLoop (Some noteLine)
    [Chunk [49; 44; 50; 13; 10; 51]%N; Chunk []; Chunk [52; 10; 10; 120]%N] []
  = ([120]%N, [[49; 44; 50]%N; [51; 52]%N; []]).
Proof. reflexivity. Qed.

(** Without a handler the lines are dropped, and a handler that throws
    ends the loop. *)
Example no_handler_drops_lines :
  readLoop (St := list jsstring) None [Chunk [49; 10; 50]%N] [] = ([50]%N, []).
Proof. reflexivity. Qed.

End SerialFacts.

(** ** The data connection *)

Module ConnectionFacts.

Import DataConnection.

Ltac eff_unfold :=
  unfold mbind, eff_bind, mret, eff_ret, when, gets, modify, throw,
    try_catch, try_finally, exec, outcome in *.

(** [serial.disconnect] leaves the port not connected, and
    [serial.connect] and [serial.disconnect] never throw. *)
Lemma serial_disconnect_run (env : Serial.DisconnectEnv) (s : Serial.Hook) :
  outcome (Serial.disconnect env) s = Ok tt
  ∧ Serial.isConnected (Serial.state (exec (Serial.disconnect env) s)) = false.
Proof.
  unfold Serial.disconnect, Serial.setAbortControllerRef, Serial.setReaderRef,
    Serial.setWriterRef, Serial.setPortRef.
  eff_unfold. destruct s as [st abort reader prt writer], env as [pc].
  cbn. destruct prt as [p|], pc as [r|]; split; reflexivity.
Qed.

Lemma serial_connect_ok (config : Serial.SerialConfig) (env : Serial.ConnectEnv)
    (s : Serial.Hook) :
  outcome (Serial.connect config env) s = Ok tt.
Proof.
  unfold Serial.connect, Serial.disconnect, Serial.setState,
    Serial.setAbortControllerRef, Serial.setReaderRef, Serial.setWriterRef,
    Serial.setPortRef.
  eff_unfold. destruct s as [st abort reader prt writer], env as [[pc] rp po].
  cbn. destruct (Serial.isSupported st); [|reflexivity].
  destruct prt as [p|], pc as [r|], rp as [r'|p'], po as [r''|]; reflexivity.
Qed.

Section Operations.

Context {G Cfg : Type} `{SignalGenerator G Cfg}.

(** What [connectSerial] does: it never throws, since [serial.connect]
    keeps its errors to itself. *)
Lemma connectSerial_run (config : Serial.SerialConfig) (env : Serial.ConnectEnv)
    (h : Hook G) :
  let g := generatorHook h in
  let g' := if isRunning g then stop g else g in
  let s' := exec (Serial.connect config env) (serialHook h) in
  connectSerial config env h =
  (Ok tt,
   MkHook (Some serial) false None s' g'
     (journal h
      ++ (if isRunning g
          then [MkEntry GeneratorStop (serialIsConnected h) (isRunning g')]
          else [])
      ++ [MkEntry SerialConnect (Serial.isConnected (Serial.state s'))
            (isRunning g')])).
Proof.
  intros g g' s'. subst g g' s'.
  pose proof (serial_connect_ok config env (serialHook h)) as Hok.
  unfold connectSerial, onGenerator, onSerial, setIsConnecting, setError,
    setConnectionType, withIsConnecting, note, generatorIsRunning,
    serialIsConnected.
  eff_unfold. destruct h as [t c e s g j]. cbn in *.
  destruct (isRunning g) eqn:Hg; cbn;
    destruct (Serial.connect config env s) as [r s'] eqn:Hc; cbn in *;
    subst r; cbn; rewrite <- ?app_assoc; reflexivity.
Qed.

(** What [connectGenerator] does: the errors of the generator are kept
    in the state. *)
Lemma connectGenerator_run (config : Cfg) (env : Serial.DisconnectEnv)
    (h : Hook G) :
  let s' := if serialIsConnected h
            then exec (Serial.disconnect env) (serialHook h)
            else serialHook h in
  let connected' := Serial.isConnected (Serial.state s') in
  let configured := setConfig config (generatorHook h) in
  let started := start (snd configured) in
  let failure :=
    match fst configured, fst started with
    | Throw e, _ => Some e
    | Ok _, Throw e => Some e
    | Ok _, Ok _ => None
    end in
  let g' := match fst configured with
            | Ok _ => snd started
            | Throw _ => snd configured
            end in
  connectGenerator config env h =
  (Ok tt,
   MkHook (match failure with None => Some generator | Some _ => None end)
     (isConnecting h)
     ((λ e, messageOr e "Failed to start signal generator") <$> failure)
     s' g'
     (journal h
      ++ (if serialIsConnected h
          then [MkEntry SerialDisconnect connected' (generatorIsRunning h)]
          else [])
      ++ [MkEntry GeneratorSetConfig connected' (isRunning (snd configured))]
      ++ match fst configured with
         | Ok _ => [MkEntry GeneratorStart connected' (isRunning (snd started))]
         | Throw _ => []
         end)).
Proof.
  intros s' connected' configured started failure g'.
  subst s' connected' configured started failure g'.
  pose proof (serial_disconnect_run env (serialHook h)) as [Hok _].
  unfold connectGenerator, onGenerator, onSerial, setError,
    setConnectionType, note, generatorIsRunning, serialIsConnected.
  eff_unfold. destruct h as [t c e s g j]. cbn in *.
  destruct (Serial.isConnected (Serial.state s)) eqn:Hs; cbn;
    [destruct (Serial.disconnect env s) as [r s'] eqn:Hd; cbn in *; subst r; cbn|];
    (destruct (setConfig config g) as [[[]|e1] g1]; cbn;
     [destruct (start g1) as [[[]|e2] g2]; cbn|]);
    rewrite <- ?app_assoc; reflexivity.
Qed.

Lemma disconnect_run (env : Serial.DisconnectEnv) (h : Hook G) :
  let s' := if serialIsConnected h
            then exec (Serial.disconnect env) (serialHook h)
            else serialHook h in
  let connected' := Serial.isConnected (Serial.state s') in
  let g := generatorHook h in
  let g' := if isRunning g then stop g else g in
  disconnect env h =
  (Ok tt,
   MkHook None (isConnecting h) None s' g'
     (journal h
      ++ (if serialIsConnected h
          then [MkEntry SerialDisconnect connected' (isRunning g)]
          else [])
      ++ (if isRunning g
          then [MkEntry GeneratorStop connected' (isRunning g')]
          else []))).
Proof.
  intros s' connected' g g'. subst s' connected' g g'.
  pose proof (serial_disconnect_run env (serialHook h)) as [Hok _].
  unfold disconnect, onGenerator, onSerial, setError,
    setConnectionType, note, generatorIsRunning, serialIsConnected.
  eff_unfold. destruct h as [t c e s g j]. cbn in *.
  destruct (Serial.isConnected (Serial.state s)) eqn:Hs; cbn;
    [destruct (Serial.disconnect env s) as [r s'] eqn:Hd; cbn in *; subst r; cbn|];
    destruct (isRunning g) eqn:Hg; cbn;
    rewrite <- ?app_assoc, ?app_nil_r; reflexivity.
Qed.

(** C9: [write] throws the error ["Serial port not connected"] if and
    only if the connection type is not serial, or the port is not
    connected, or there is no writer, and then nothing reaches a writer;
    otherwise the UTF-8 bytes of the data are handed to the writer as one
    chunk, and [write] ends as the writer does. *)
Theorem write_guards_then_forwards (data : jsstring)
    (rejection : option BrowserRejection) (h : Hook G) :
  let refused :=
    connectionType h ≠ Some serial
    ∨ serialIsConnected h = false
    ∨ Serial.writerRef (serialHook h) = None in
  let h' := exec (write data rejection) h in
  (outcome (write data rejection) h
     = Throw (ErrorObject "Serial port not connected") ↔ refused)
  ∧ (refused → h' = h)
  ∧ (¬ refused →
     ∃ w, Serial.writerRef (serialHook h) = Some w
       ∧ Serial.writerRef (serialHook h')
         = Some (Serial.MkWriter
                   (Serial.writes w ++ [Serial.TextEncoder_encode data]))
       ∧ outcome (write data rejection) h
         = match rejection with
           | None => Ok tt
           | Some r => Throw (Rejected r)
           end).
Proof.
  intros refused h'. subst refused h'.
  unfold write, Serial.write, Serial.writer_write, Serial.setState,
    serialIsConnected.
  eff_unfold. destruct h as [t c e [st a rd p w] g j]. cbn.
  destruct (decide (t = Some serial)) as [->|Ht].
  2: { rewrite bool_decide_eq_false_2 by exact Ht. cbn.
       split; [|split]; [split; auto | reflexivity | intros F; exfalso; auto]. }
  rewrite bool_decide_eq_true_2 by reflexivity. cbn.
  destruct (Serial.isConnected st) eqn:Hc; cbn.
  2: { split; [|split]; [split; auto | reflexivity | intros F; exfalso; auto]. }
  destruct w as [w|]; cbn.
  2: { split; [|split]; [split; auto | reflexivity | intros F; exfalso; auto]. }
  split; [|split].
  - split.
    + destruct rejection; discriminate.
    + intros [F|[F|F]]; [contradiction | discriminate | discriminate].
  - intros [F|[F|F]]; [contradiction | discriminate | discriminate].
  - intros _. exists w. destruct rejection; repeat split.
Qed.

End Operations.

Section Invariant.

Context {G Cfg : Type} `{SignalGenerator G Cfg} `{!SignalGeneratorLaws G Cfg}.

Lemma stopped_if_running (g : G) :
  isRunning (if isRunning g then stop g else g) = false.
Proof. destruct (isRunning g) eqn:Hg; [apply stop_stops | exact Hg]. Qed.

Lemma disconnected_if_connected (env : Serial.DisconnectEnv) (h : Hook G) :
  Serial.isConnected
    (Serial.state (if serialIsConnected h
                   then exec (Serial.disconnect env) (serialHook h)
                   else serialHook h)) = false.
Proof.
  destruct (serialIsConnected h) eqn:Hs; [|exact Hs].
  apply serial_disconnect_run.
Qed.

Lemma entry_ok_serial_off (c : SourceCall) (b : bool) :
  entryAtMostOneActive (MkEntry c false b).
Proof. intros [Hs _]. discriminate Hs. Qed.

Lemma entry_ok_generator_off (c : SourceCall) (b : bool) :
  entryAtMostOneActive (MkEntry c b false).
Proof. intros [_ Hg]. discriminate Hg. Qed.

(** Every operation leaves at most one source active, and so does every
    call it makes on the way. *)
Lemma perform_keeps_one_active (a : Action) (h : Hook G) :
  let h' := exec (perform a) h in
  atMostOneActive h'
  ∧ ∃ new, journal h' = journal h ++ new ∧ Forall entryAtMostOneActive new.
Proof.
  destruct a as [config env | config env | env]; cbn [perform]; unfold exec.
  - rewrite connectSerial_run. cbn [snd].
    pose proof (stopped_if_running (generatorHook h)) as Hg.
    split.
    + unfold atMostOneActive, generatorIsRunning. cbn [generatorHook].
      rewrite Hg. intros [_ F]. discriminate F.
    + eexists. split; [reflexivity|]. rewrite Hg.
      apply Forall_app. split.
      * destruct (isRunning (generatorHook h));
          repeat constructor; apply entry_ok_generator_off.
      * repeat constructor. apply entry_ok_generator_off.
  - rewrite connectGenerator_run. cbn [snd].
    pose proof (disconnected_if_connected env h) as Hs.
    split.
    + unfold atMostOneActive, serialIsConnected at 1. cbn [serialHook].
      rewrite Hs. intros [F _]. discriminate F.
    + eexists. split; [reflexivity|]. rewrite Hs.
      repeat (apply Forall_app; split).
      * destruct (serialIsConnected h);
          repeat constructor; apply entry_ok_serial_off.
      * repeat constructor. apply entry_ok_serial_off.
      * destruct (fst (setConfig config (generatorHook h)));
          repeat constructor; apply entry_ok_serial_off.
  - rewrite disconnect_run. cbn [snd].
    pose proof (disconnected_if_connected env h) as Hs.
    split.
    + unfold atMostOneActive, serialIsConnected at 1. cbn [serialHook].
      rewrite Hs. intros [F _]. discriminate F.
    + eexists. split; [reflexivity|]. rewrite Hs.
      apply Forall_app. split.
      * destruct (serialIsConnected h);
          repeat constructor; apply entry_ok_serial_off.
      * destruct (isRunning (generatorHook h));
          repeat constructor; apply entry_ok_serial_off.
Qed.

Lemma performAll_keeps_one_active (actions : list Action) : ∀ h : Hook G,
  atMostOneActive h → Forall entryAtMostOneActive (journal h) →
  atMostOneActive (performAll actions h)
  ∧ Forall entryAtMostOneActive (journal (performAll actions h)).
Proof.
  induction actions as [|a actions IH]; intros h Hh Hj; cbn [performAll foldl].
  - split; assumption.
  - destruct (perform_keeps_one_active a h) as [Hh' [new [Ej Hnew]]].
    apply IH; [exact Hh'|]. rewrite Ej. apply Forall_app. split; assumption.
Qed.

(** C8: at most one source is active at any time.  [connectSerial] stops
    a running generator before it connects the port; [connectGenerator]
    disconnects a connected port before it configures and starts the
    generator; [disconnect] stops whichever is active and sets the
    connection type to null; and in every run of these operations from a
    state with at most one source active, at most one is active after
    every call they make and after every operation. *)
Theorem one_source_at_a_time (h : Hook G) :
  let before := length (journal h) in
  (∀ config env,
     let h' := exec (connectSerial config env) h in
     callsSince before h'
       = (if generatorIsRunning h then [GeneratorStop] else []) ++ [SerialConnect]
     ∧ generatorIsRunning h' = false)
  ∧ (∀ config env,
       let h' := exec (connectGenerator config env) h in
       callsSince before h'
         = (if serialIsConnected h then [SerialDisconnect] else [])
           ++ GeneratorSetConfig
              :: match outcome (setConfig config) (generatorHook h) with
                 | Ok _ => [GeneratorStart]
                 | Throw _ => []
                 end
       ∧ serialIsConnected h' = false)
  ∧ (∀ env,
       let h' := exec (disconnect env) h in
       callsSince before h'
         = (if serialIsConnected h then [SerialDisconnect] else [])
           ++ (if generatorIsRunning h then [GeneratorStop] else [])
       ∧ serialIsConnected h' = false
       ∧ generatorIsRunning h' = false
       ∧ connectionType h' = None)
  ∧ (∀ actions,
       atMostOneActive h → Forall entryAtMostOneActive (journal h) →
       atMostOneActive (performAll actions h)
       ∧ Forall entryAtMostOneActive (journal (performAll actions h))).
Proof.
  intros before. subst before. unfold callsSince, exec.
  split; [|split; [|split]].
  - intros config env. rewrite connectSerial_run. cbn [snd journal].
    rewrite drop_app_length, fmap_app. split.
    + unfold generatorIsRunning.
      destruct (isRunning (generatorHook h)); reflexivity.
    + apply stopped_if_running.
  - intros config env. rewrite connectGenerator_run. cbn [snd journal].
    rewrite drop_app_length, !fmap_app. split.
    + unfold outcome.
      destruct (serialIsConnected h),
        (fst (setConfig config (generatorHook h))); reflexivity.
    + apply disconnected_if_connected.
  - intros env. rewrite disconnect_run. cbn [snd journal connectionType].
    rewrite drop_app_length, fmap_app. split; [|split; [|split]].
    + unfold generatorIsRunning.
      destruct (serialIsConnected h), (isRunning (generatorHook h));
        reflexivity.
    + apply disconnected_if_connected.
    + apply stopped_if_running.
    + reflexivity.
  - intros actions. apply performAll_keeps_one_active.
Qed.

End Invariant.

Import Sample.

Lemma simple_generator_laws : SignalGeneratorLaws SimpleGenerator nat.
Proof. split; reflexivity. Qed.

(** Connecting the serial port while the generator runs stops the
    generator first. *)
Lemma one_source_witness :
  callsSince 0 (exec (connectSerial DEFAULT_SERIAL_CONFIG portOpens) generatorRuns)
    = [GeneratorStop; SerialConnect]
  ∧ generatorIsRunning (exec (connectSerial DEFAULT_SERIAL_CONFIG portOpens) generatorRuns)
    = false.
Proof.
  exact (proj1 (one_source_at_a_time
                  (SignalGeneratorLaws0 := simple_generator_laws) generatorRuns)
               DEFAULT_SERIAL_CONFIG portOpens).
Defined.

(** After that connection, a write sends the bytes of ["A\n"], and a
    write before it is refused. *)
Example write_after_connect :
  let h := exec (connectSerial DEFAULT_SERIAL_CONFIG portOpens) generatorRuns in
  outcome (write [65; 10]%N None) h = Ok tt
  ∧ Serial.writerRef (serialHook (exec (write [65; 10]%N None) h))
    = Some (Serial.MkWriter [[65; 10]%N])
  ∧ outcome (write [65; 10]%N None) generatorRuns
    = Throw (ErrorObject "Serial port not connected").
Proof. repeat split. Qed.

End ConnectionFacts.

(** * More of the code *)

(** ** The serial hook over runs *)

Module SerialRuns.

Import Serial.

Ltac eff_run :=
  unfold connect, disconnect, write, writer_write, setState,
    setAbortControllerRef, setReaderRef, setWriterRef, setPortRef,
    withError, withConnecting;
  unfold mbind, eff_bind, mret, eff_ret, when, gets, modify, throw,
    try_catch, try_finally, exec, outcome in *.

(** [disconnect] never throws and tears the connection down; only a port
    whose [close] rejects stays in [portRef]. *)
Lemma disconnect_effect (env : DisconnectEnv) (h : Hook) :
  let h' := exec (disconnect env) h in
  outcome (disconnect env) h = Ok tt
  ∧ state h' = MkSerialState (isSupported (state h)) (isConnecting (state h))
                 false None false (error (state h))
  ∧ abortControllerRef h' = false
  ∧ readerRef h' = None
  ∧ writerRef h' = None
  ∧ portRef h' = match portRef h, portClose env with
                 | Some p, Some _ => Some p
                 | _, _ => None
                 end.
Proof.
  eff_run. destruct h as [st ab rd pr wr], env as [pc]. cbn.
  destruct pr as [p|], pc as [r|]; repeat split.
Qed.

(** Without Web Serial, [connect] asks the browser for nothing: it sets
    the error message and changes nothing else. *)
Lemma connect_unsupported (config : SerialConfig) (env : ConnectEnv) (h : Hook) :
  isSupported (state h) = false →
  connect config env h =
  (Ok tt,
   MkHook (withError (Some "Web Serial not supported in this browser."%string)
                     (state h))
          (abortControllerRef h) (readerRef h) (portRef h) (writerRef h)).
Proof.
  intros Hs. eff_run.
  destruct h as [[sup cing cted prt rl err] ab rd pr wr]. cbn in *.
  subst sup. reflexivity.
Qed.

(** With Web Serial, [connect] never throws and ends with [isConnecting]
    false.  It ends connected exactly when the browser grants a port and
    opens it, and then the refs hold that port and a writer that has
    written nothing; otherwise the message of the rejection is in
    [error], and what was connected before has been torn down. *)
Lemma connect_effect (config : SerialConfig) (env : ConnectEnv) (h : Hook) :
  isSupported (state h) = true →
  let h' := exec (connect config env) h in
  let failed (r : BrowserRejection) :=
    error (state h') = Some (messageOr (Rejected r) "Failed to connect.")
    ∧ isConnected (state h')
      = match portRef h with
        | Some _ => false
        | None => isConnected (state h)
        end
    ∧ writerRef h' = match portRef h with
                     | Some _ => None
                     | None => writerRef h
                     end in
  outcome (connect config env) h = Ok tt
  ∧ isConnecting (state h') = false
  ∧ isSupported (state h') = true
  ∧ match requestPort env, portOpen env with
    | inr p, None =>
        isConnected (state h') = true
        ∧ port (state h') = Some p
        ∧ portRef h' = Some p ∧ readerRef h' = Some p
        ∧ writerRef h' = Some (MkWriter [])
        ∧ abortControllerRef h' = true
        ∧ error (state h') = None
    | inl r, _ => failed r
    | inr _, Some r => failed r
    end.
Proof.
  intros Hs. eff_run.
  destruct h as [[sup cing cted prt rl err] ab rd pr wr], env as [[pc] rp po].
  cbn in *. subst sup.
  destruct pr as [p|], pc as [r|], rp as [r'|p'], po as [r''|];
    cbn; repeat split.
Qed.

(** Every operation keeps the state and the refs in agreement. *)
Lemma operate_consistent (o : Operation) (h : Hook) :
  Consistent h → Consistent (exec (operate o) h).
Proof.
  unfold Consistent. destruct o as [config env | env | data rejection];
    cbn [operate]; eff_run;
    destruct h as [[sup cing cted prt rl err] ab rd pr wr]; cbn.
  - destruct env as [[pc] rp po]. cbn. intros [-> Hp].
    destruct sup; cbn; [|split; [reflexivity | exact Hp]].
    destruct prt as [q|].
    + destruct Hp as (-> & -> & -> & Hw & ->).
      destruct pc as [r|], rp as [r'|p'], po as [r''|]; cbn;
        repeat split; eauto.
    + subst cted.
      destruct pr as [q|]; [destruct pc as [r|]|];
        destruct rp as [r'|p'], po as [r''|]; cbn; repeat split; eauto.
  - destruct env as [pc]. cbn. intros [-> _].
    destruct pr as [q|], pc as [r|]; cbn; split; reflexivity.
  - intros [-> Hp]. destruct wr as [w|]; cbn.
    + destruct rejection as [r|]; cbn; (split; [reflexivity|]);
        destruct prt as [q|]; try exact Hp;
        destruct Hp as (-> & -> & -> & Hw & ->); repeat split; eauto.
    + split; [reflexivity | exact Hp].
Qed.

Lemma initial_consistent (supported : bool) : Consistent (initial supported).
Proof. split; reflexivity. Qed.

Lemma operateAll_consistent (ops : list Operation) : ∀ h,
  Consistent h → Consistent (operateAll ops h).
Proof.
  unfold operateAll.
  induction ops as [|o ops IH]; intros h Hh; cbn [foldl]; [exact Hh|].
  apply IH, operate_consistent, Hh.
Qed.

(** X3: After any run from the initial hook the state and the refs agree: a
    hook that says connected has its port, reader, writer and abort
    controller, and no run ends with [isConnecting] set. *)
Theorem runs_are_consistent (supported : bool) (ops : list Operation) :
  let h := operateAll ops (initial supported) in
  isConnecting (state h) = false
  ∧ (isConnected (state h) = true ↔ is_Some (port (state h)))
  ∧ (isConnected (state h) = true →
     portRef h = port (state h) ∧ readerRef h = port (state h)
     ∧ is_Some (writerRef h) ∧ abortControllerRef h = true).
Proof.
  intros h.
  destruct (operateAll_consistent ops _ (initial_consistent supported))
    as [Hc Hp].
  fold h in Hc, Hp. split; [exact Hc|].
  destruct (port (state h)) as [p|].
  - destruct Hp as (Hcon & -> & -> & Hw & ->). rewrite Hcon.
    split; [split; eauto | intros _; repeat split; exact Hw].
  - rewrite Hp. split; [split; [discriminate | intros [? ?]; discriminate]
                       | discriminate].
Qed.

(** So a hook reached from the initial one that says connected accepts a
    write: the check for a writer in [write] cannot fail there. *)
Theorem connected_hook_has_writer (supported : bool) (ops : list Operation)
    (data : jsstring) :
  let h := operateAll ops (initial supported) in
  isConnected (state h) = true →
  outcome (write data None) h = Ok tt.
Proof.
  intros h Hc.
  destruct (operateAll_consistent ops _ (initial_consistent supported))
    as [_ Hp].
  fold h in Hp. destruct (port (state h)) as [p|]; [|congruence].
  destruct Hp as (_ & _ & _ & [w Hw] & _).
  eff_run. rewrite Hw. reflexivity.
Qed.

Lemma operate_unsupported (o : Operation) (h : Hook) :
  isSupported (state h) = false ∧ isConnected (state h) = false
    ∧ writerRef h = None →
  let h' := exec (operate o) h in
  isSupported (state h') = false ∧ isConnected (state h') = false
    ∧ writerRef h' = None.
Proof.
  intros (Hs & Hc & Hw).
  destruct o as [config env | env | data rejection]; cbn [operate].
  - unfold exec. rewrite (connect_unsupported config env h Hs). cbn.
    repeat split; assumption.
  - destruct (disconnect_effect env h) as (_ & E & _ & _ & Ew & _).
    cbn zeta in *. rewrite E, Ew. cbn. repeat split; assumption.
  - eff_run. rewrite Hw. cbn. repeat split; assumption.
Qed.

(** X4: In a browser without Web Serial no run ever connects or gets a
    writer, so every write throws the error of the missing connection. *)
Theorem unsupported_never_connects (ops : list Operation) (data : jsstring)
    (rejection : option BrowserRejection) :
  let h := operateAll ops (initial false) in
  isConnected (state h) = false
  ∧ writerRef h = None
  ∧ outcome (write data rejection) h
    = Throw (ErrorObject "Serial port not connected").
Proof.
  intros h.
  assert (Hh : isSupported (state h) = false ∧ isConnected (state h) = false
               ∧ writerRef h = None).
  { subst h. unfold operateAll.
    assert (H0 : isSupported (state (initial false)) = false
                 ∧ isConnected (state (initial false)) = false
                 ∧ writerRef (initial false) = None) by (repeat split).
    revert H0. generalize (initial false) as h0.
    induction ops as [|o ops IH]; intros h0 H0; cbn [foldl]; [exact H0|].
    apply IH, operate_unsupported, H0. }
  destruct Hh as (_ & Hc & Hw). split; [exact Hc|]. split; [exact Hw|].
  eff_run. rewrite Hw. reflexivity.
Qed.

(** A write on a hook with a writer: the bytes reach the writer; a
    rejection is rethrown and its message kept in [error]. *)
Lemma write_with_writer (data : jsstring) (rejection : option BrowserRejection)
    (h : Hook) (w : Writer) :
  writerRef h = Some w →
  write data rejection h =
  (match rejection with
   | None => Ok tt
   | Some r => Throw (Rejected r)
   end,
   MkHook
     match rejection with
     | None => state h
     | Some r =>
         withError (Some (messageOr (Rejected r) "Failed to write to serial port"))
                   (state h)
     end
     (abortControllerRef h) (readerRef h) (portRef h)
     (Some (MkWriter (writes w ++ [TextEncoder_encode data])))).
Proof.
  intros Hw. eff_run.
  destruct h as [[sup cing cted prt rl err] ab rd pr wr]. cbn in *. subst wr.
  destruct rejection as [r|]; reflexivity.
Qed.

(** The error a sequence of writes leaves: the message of the last
    rejection, or the error there was. *)
Definition errorAfterWrites (e : option string)
    (ws : list (jsstring * option BrowserRejection)) : option string :=
  foldl (λ e w, match snd w with
                | Some r => Some (messageOr (Rejected r)
                                    "Failed to write to serial port")
                | None => e
                end) e ws.

Lemma writes_run (ws : list (jsstring * option BrowserRejection)) : ∀ h w,
  writerRef h = Some w →
  let h' := operateAll ((λ x, Write (fst x) (snd x)) <$> ws) h in
  writerRef h'
    = Some (MkWriter (writes w ++ ((λ x, TextEncoder_encode (fst x)) <$> ws)))
  ∧ error (state h') = errorAfterWrites (error (state h)) ws
  ∧ isConnected (state h') = isConnected (state h)
  ∧ portRef h' = portRef h.
Proof.
  induction ws as [|[d r] ws IH]; intros h w Hw; cbn.
  - rewrite app_nil_r. destruct w. repeat split. exact Hw.
  - unfold operateAll. cbn [foldl operate fst snd]. unfold exec at 2 4 6 8.
    rewrite (write_with_writer d r h w Hw). cbn [snd].
    match goal with |- context [foldl _ ?h1 _] => set (h1' := h1) end.
    destruct (IH h1' (MkWriter (writes w ++ [TextEncoder_encode d])) eq_refl)
      as (E1 & E2 & E3 & E4).
    unfold operateAll in *. rewrite E1, E2, E3, E4. subst h1'.
    cbn [writes state error isConnected portRef withError].
    rewrite <- app_assoc. destruct r; repeat split.
Qed.

(** X5: Several writes on a hook with a writer: every chunk reaches the
    writer, in the order of the calls, whether the writer accepts it or
    not; [error] ends as the message of the last rejection. *)
Theorem writes_reach_writer_in_order
    (ws : list (jsstring * option BrowserRejection)) (h : Hook) (w : Writer) :
  writerRef h = Some w →
  let h' := operateAll ((λ x, Write (fst x) (snd x)) <$> ws) h in
  writerRef h'
    = Some (MkWriter (writes w ++ ((λ x, TextEncoder_encode (fst x)) <$> ws)))
  ∧ error (state h') = errorAfterWrites (error (state h)) ws.
Proof.
  intros Hw h'. destruct (writes_run ws h w Hw) as (E1 & E2 & _).
  split; assumption.
Qed.

(** X1: [disconnect] never throws.  After it the state says not connected
    and holds no port, there is no reader and no writer, so a write is
    refused; the port stays in [portRef] only when its [close] was
    rejected. *)
Theorem disconnect_leaves_nothing_to_write_to (env : DisconnectEnv) (h : Hook)
    (data : jsstring) (rejection : option BrowserRejection) :
  let h' := exec (disconnect env) h in
  outcome (disconnect env) h = Ok tt
  ∧ isConnected (state h') = false
  ∧ port (state h') = None
  ∧ readerRef h' = None
  ∧ writerRef h' = None
  ∧ (portRef h' = None ∨ (is_Some (portClose env) ∧ portRef h' = portRef h))
  ∧ error (state h') = error (state h)
  ∧ write data rejection h'
    = (Throw (ErrorObject "Serial port not connected"), h').
Proof.
  intros h'.
  destruct (disconnect_effect env h) as (Ho & Es & _ & Er & Ew & Ep).
  fold h' in Es, Er, Ew, Ep. rewrite Es, Er, Ew, Ep. cbn.
  split; [exact Ho|]. do 4 (split; [reflexivity|]).
  split; [|split; [reflexivity|]].
  - destruct (portRef h) as [p|]; [|left; reflexivity].
    destruct (portClose env) as [r|]; [right; split; eauto | left; reflexivity].
  - eff_run. rewrite Ew. reflexivity.
Qed.


Import Sample.

Lemma connected_hook_witness :
  outcome (write [79; 75]%N None) connectedSerial = Ok tt.
Proof.
  exact (connected_hook_has_writer true
           [Connect DataConnection.DEFAULT_SERIAL_CONFIG portOpens]
           [79; 75]%N eq_refl).
Defined.

Lemma writes_in_order_witness :
  writerRef (operateAll [Write [65]%N None;
                         Write [66]%N (Some (OtherValue 0));
                         Write [67]%N None] connectedSerial)
    = Some (MkWriter [[65]; [66]; [67]]%N)
  ∧ error (state (operateAll [Write [65]%N None;
                              Write [66]%N (Some (OtherValue 0));
                              Write [67]%N None] connectedSerial))
    = Some "Failed to write to serial port"%string.
Proof.
  exact (writes_reach_writer_in_order
           [([65]%N, None); ([66]%N, Some (OtherValue 0)); ([67]%N, None)]
           connectedSerial (MkWriter []) eq_refl).
Defined.


End SerialRuns.

(** ** The read loop at its edges *)

Module ReadLoopRuns.

Import Serial SerialFacts.

(** X6: Only the stream counts, not how the reader cuts it into chunks: two
    sequences of reads with the same text leave the same buffer and the
    same handler state. *)
Theorem chunking_does_not_matter {St} (handler : jsstring → Eff St unit)
    (reads1 reads2 : list ReadResult) (st : St) :
  (∀ line st, outcome (handler line) st = Ok tt) →
  concat (chunksRead reads1) = concat (chunksRead reads2) →
  readLoop (Some handler) reads1 st = readLoop (Some handler) reads2 st.
Proof.
  intros Hret Hsame.
  rewrite !readLoop_handler by exact Hret. rewrite Hsame. reflexivity.
Qed.

Lemma chunking_does_not_matter_witness :
  readLoop (Some noteLine) [Chunk [49; 13]%N; Chunk [10; 50; 10; 51]%N] []
  = readLoop (Some noteLine) [Chunk [49; 13; 10; 50]%N; Chunk []; Chunk [10; 51]%N] [].
Proof.
  apply (chunking_does_not_matter noteLine); reflexivity.
Defined.

(** Without a handler the inner loop still consumes the complete lines. *)
Lemma drain_no_handler {St} (buffer : jsstring) : ∀ st : St,
  drain None buffer st = (Ok tt, (snd (spec_segments [] buffer), st)).
Proof.
  remember (length buffer) as n eqn:Hn. revert buffer Hn.
  induction n as [n IH] using lt_wf_ind. intros buffer Hn st.
  rewrite drain_unfold.
  destruct (indexOf buffer LF) as [index|] eqn:Hi.
  - cbn [callHandler mret eff_ret].
    pose proof (indexOf_lt _ _ _ Hi) as Hlt.
    rewrite (IH (length (sliceFrom buffer (index + 1))));
      [| unfold sliceFrom; rewrite length_drop; lia | reflexivity].
    rewrite (segments_first_newline buffer [] index Hi). reflexivity.
  - rewrite segments_no_newline by exact Hi. reflexivity.
Qed.

Lemma readLoop_body_no_handler {St} (reads : list ReadResult) :
  ∀ buffer (st : St), LF ∉ buffer →
  snd (readLoop_body None reads (buffer, st)) =
  (snd (spec_segments buffer (concat (chunksRead reads))), st).
Proof.
  induction reads as [|[value| |r] reads IH]; intros buffer st Hn;
    cbn [readLoop_body chunksRead concat]; try reflexivity.
  unfold mbind, eff_bind, when, modify, drainBuffer.
  destruct value as [|c value]; cbn [Boolean mret eff_ret].
  - apply IH, Hn.
  - rewrite drain_no_handler.
    rewrite (segments_app_buffer buffer (c :: value) [] Hn).
    change ([] ++ buffer) with buffer.
    rewrite IH by (apply segments_without_newline, Hn).
    rewrite (segments_app (c :: value) (concat (chunksRead reads)) buffer).
    reflexivity.
Qed.

(** X7: With no handler registered the loop still consumes the stream: the
    complete lines are dropped, what follows the last newline is kept,
    and the state is untouched. *)
Theorem lines_are_dropped_without_handler {St} (reads : list ReadResult)
    (st : St) :
  let stream := concat (chunksRead reads) in
  readLoop None reads st = (snd (spec_segments [] stream), st)
  ∧ stream = concat ((λ seg, seg ++ [LF]) <$> fst (spec_segments [] stream))
             ++ fst (readLoop None reads st)
  ∧ LF ∉ fst (readLoop None reads st).
Proof.
  intros stream.
  assert (E : readLoop None reads st = (snd (spec_segments [] stream), st)).
  { unfold readLoop. rewrite exec_try_catch_ignore.
    apply readLoop_body_no_handler, not_elem_of_nil. }
  rewrite E. cbn [fst]. split; [reflexivity|]. split.
  - apply (segments_concat stream []).
  - apply segments_without_newline, not_elem_of_nil.
Qed.

(** The body of the loop ends at a result that is done or a failure. *)
Lemma readLoop_body_stops {St} (ref : option (jsstring → Eff St unit))
    (last : ReadResult) (more reads : list ReadResult) :
  last = Done ∨ (∃ r, last = ReadFails r) →
  ∀ s, snd (readLoop_body ref (reads ++ last :: more) s)
       = snd (readLoop_body ref reads s).
Proof.
  intros Hlast.
  induction reads as [|[value| |r] reads IH]; intros s;
    cbn [app readLoop_body]; try reflexivity.
  - destruct Hlast as [->|[r ->]]; reflexivity.
  - unfold mbind, eff_bind.
    match goal with
    | |- context [when ?b ?m s] => destruct (when b m s) as [[u|e] s']
    end; [apply IH | reflexivity].
Qed.

(** X8: Nothing is read after the reader is done or has failed, and a failed
    read is swallowed: what follows in the sequence changes nothing. *)
Theorem reads_after_the_end_are_ignored {St}
    (ref : option (jsstring → Eff St unit))
    (reads more : list ReadResult) (r : BrowserRejection) (st : St) :
  readLoop ref (reads ++ Done :: more) st = readLoop ref reads st
  ∧ readLoop ref (reads ++ ReadFails r :: more) st = readLoop ref reads st.
Proof.
  unfold readLoop. rewrite !exec_try_catch_ignore. split.
  - apply readLoop_body_stops. left. reflexivity.
  - apply readLoop_body_stops. right. exists r. reflexivity.
Qed.





End ReadLoopRuns.

(** ** From the port to the store *)

Module Pipeline.

Import App Serial.

(** The store calls one line leads to. *)
Definition spec_calls (Number : jsstring → float) (line : jsstring)
  : list StoreCall :=
  if startsWith (trim line) HASH then
    match spec_header_names line with
    | [] => []
    | names => [CallSetSeries names]
    end
  else
    match spec_values Number line with
    | [] => []
    | values => [CallAppend values]
    end.

Section Parser.

Context {S : Type} `{DataStore S}.
Variable Number : jsstring → float.

Lemma parser_step (line : jsstring) (a : State (Recorder S)) :
  let a' := exec (handleIncomingLine Number line) a in
  lastLine a' = line
  ∧ consoleIncoming a' = consoleIncoming a ++ [line]
  ∧ calls (store a') = calls (store a) ++ spec_calls Number line.
Proof.
  unfold exec, spec_calls. rewrite ParserFacts.handleIncomingLine_run.
  cbn [snd lastLine consoleIncoming store].
  split; [reflexivity|]. split; [reflexivity|].
  destruct (startsWith (trim line) HASH).
  - destruct (spec_header_names line); [rewrite app_nil_r|]; reflexivity.
  - destruct (spec_values Number line); [rewrite app_nil_r|]; reflexivity.
Qed.

Lemma default_last_cons {A} (x y : A) (l : list A) :
  default x (last (y :: l)) = default y (last l).
Proof.
  revert x y. induction l as [|z l IH]; intros x y; [reflexivity|].
  change (last (y :: z :: l)) with (last (z :: l)).
  rewrite (IH x z), (IH y z). reflexivity.
Qed.

Lemma parser_steps (lines : list jsstring) : ∀ a : State (Recorder S),
  let a' := handled (handleIncomingLine Number) lines a in
  lastLine a' = default (lastLine a) (last lines)
  ∧ consoleIncoming a' = consoleIncoming a ++ lines
  ∧ calls (store a') = calls (store a) ++ concat (spec_calls Number <$> lines).
Proof.
  induction lines as [|line lines IH]; intros a; cbn [handled foldl].
  - cbn. rewrite !app_nil_r. repeat split.
  - destruct (parser_step line a) as (E1 & E2 & E3).
    destruct (IH (exec (handleIncomingLine Number line) a)) as (F1 & F2 & F3).
    unfold handled in *. cbn zeta in *. rewrite F1, F2, F3, E1, E2, E3.
    cbn [fmap list_fmap concat]. rewrite <- !app_assoc.
    split; [symmetry; apply default_last_cons | split; reflexivity].
Qed.

(** X10: Every complete line of the port, and nothing else, goes through the
    parser, in order: each one is logged to the console, the last one is
    [lastLine], and the store receives the calls of each line in turn. *)
Theorem port_lines_reach_console_and_store (reads : list ReadResult)
    (a : State S) :
  let lines := linesOf [] (concat (chunksRead reads)) in
  let a' := snd (readLoop (Some (handleIncomingLine Number)) reads (watch a)) in
  consoleIncoming a' = consoleIncoming a ++ lines
  ∧ calls (store a') = concat (spec_calls Number <$> lines)
  ∧ lastLine a' = default (lastLine a) (last lines).
Proof.
  intros lines a'. subst a'. rewrite SerialFacts.readLoop_feeds_parser.
  fold lines. destruct (parser_steps lines (watch a)) as (E1 & E2 & E3).
  cbn zeta in *. rewrite E1, E2, E3. repeat split.
Qed.

End Parser.

Import Sample.

(** A header, a data line cut in two chunks, a line of words, and an
    unfinished line. *)
Example two_rows_from_the_port :
  calls (store (snd (readLoop (Some (handleIncomingLine NumberOfDigits))
    [Chunk (lit "# a b" ++ [LF] ++ lit "1,"); Chunk (lit "2" ++ [CR; LF]);
     Chunk (lit "oops" ++ [LF] ++ lit "3 4")]
    (watch emptyApp))))
  = [CallSetSeries [lit "a"; lit "b"]; CallAppend [1%float; 2%float]].
Proof. reflexivity. Qed.

End Pipeline.

(** ** The data connection over runs *)

Module ConnectionRuns.

Import DataConnection ConnectionFacts.

Section Operations.

Context {G Cfg : Type} `{SignalGenerator G Cfg}.

(** What [write] does, case by case. *)
Lemma write_run (data : jsstring) (rejection : option BrowserRejection)
    (h : Hook G) :
  write data rejection h =
  if bool_decide (connectionType h = Some serial) && serialIsConnected h
  then let '(r, s) := Serial.write data rejection (serialHook h) in
       (r, MkHook (connectionType h) (isConnecting h) (error h) s
                  (generatorHook h) (journal h))
  else (Throw (ErrorObject "Serial port not connected"), h).
Proof.
  unfold write. eff_unfold. destruct h as [t c e s g j]. cbn.
  destruct (bool_decide (t = Some serial)), (serialIsConnected _);
    reflexivity.
Qed.

(** The hook after [connectGenerator] and after [disconnect]. *)
Lemma connectGenerator_after (config : Cfg) (env : Serial.DisconnectEnv)
    (h : Hook G) :
  let h' := exec (connectGenerator config env) h in
  let configured := setConfig config (generatorHook h) in
  let started := start (snd configured) in
  outcome (connectGenerator config env) h = Ok tt
  ∧ serialHook h' = (if serialIsConnected h
                     then exec (Serial.disconnect env) (serialHook h)
                     else serialHook h)
  ∧ connectionType h'
    = match fst configured, fst started with
      | Ok _, Ok _ => Some generator
      | _, _ => None
      end
  ∧ error h'
    = match fst configured, fst started with
      | Throw e, _ => Some (messageOr e "Failed to start signal generator")
      | Ok _, Throw e => Some (messageOr e "Failed to start signal generator")
      | Ok _, Ok _ => None
      end.
Proof.
  pose proof (connectGenerator_run config env h) as R. cbn zeta in *.
  unfold exec, outcome. rewrite R. cbn [fst snd serialHook connectionType error].
  destruct (setConfig config (generatorHook h)) as [[u|e] g1]; cbn [fst snd];
    [destruct (start g1) as [[u'|e'] g2]|]; repeat split.
Qed.

Lemma disconnect_after (env : Serial.DisconnectEnv) (h : Hook G) :
  let h' := exec (disconnect env) h in
  outcome (disconnect env) h = Ok tt
  ∧ serialHook h' = (if serialIsConnected h
                     then exec (Serial.disconnect env) (serialHook h)
                     else serialHook h)
  ∧ generatorHook h' = (if generatorIsRunning h
                        then stop (generatorHook h) else generatorHook h)
  ∧ connectionType h' = None ∧ error h' = None
  ∧ isConnecting h' = isConnecting h
  ∧ journal h'
    = journal h
      ++ (if serialIsConnected h
          then [MkEntry SerialDisconnect false (generatorIsRunning h)] else [])
      ++ (if generatorIsRunning h
          then [MkEntry GeneratorStop false
                  (isRunning (stop (generatorHook h)))] else []).
Proof.
  pose proof (disconnect_run env h) as R.
  pose proof (disconnected_if_connected env h) as Hd. cbn zeta in *.
  unfold exec, outcome. rewrite R.
  cbn [fst snd serialHook generatorHook connectionType error isConnecting journal].
  rewrite Hd. unfold generatorIsRunning.
  destruct (isRunning (generatorHook h)); repeat split.
Qed.

Lemma connectSerial_after (config : Serial.SerialConfig)
    (env : Serial.ConnectEnv) (h : Hook G) :
  let h' := exec (connectSerial config env) h in
  outcome (connectSerial config env) h = Ok tt
  ∧ serialHook h' = exec (Serial.connect config env) (serialHook h)
  ∧ connectionType h' = Some serial
  ∧ error h' = None
  ∧ isConnecting h' = false.
Proof.
  pose proof (connectSerial_run config env h) as R. cbn zeta in *.
  unfold exec, outcome. rewrite R. repeat split.
Qed.

(** X12: [connectSerial] never rejects.  It leaves the connection type serial
    whether or not the port could be opened; when the browser refuses the
    port the hook ends not connected, and the only trace of the failure
    is the message in [state.error]. *)
Theorem connectSerial_keeps_failure_in_state (config : Serial.SerialConfig)
    (env : Serial.ConnectEnv) (h : Hook G) :
  Serial.isSupported (Serial.state (serialHook h)) = true →
  Serial.Consistent (serialHook h) →
  let h' := exec (connectSerial config env) h in
  let refused (r : BrowserRejection) :=
    serialIsConnected h' = false
    ∧ stateError (state h')
      = Some (messageOr (Rejected r) "Failed to connect.") in
  outcome (connectSerial config env) h = Ok tt
  ∧ connectionType h' = Some serial
  ∧ stateIsConnecting (state h') = false
  ∧ match Serial.requestPort env, Serial.portOpen env with
    | inr p, None =>
        serialIsConnected h' = true ∧ stateError (state h') = None
    | inl r, _ => refused r
    | inr _, Some r => refused r
    end.
Proof.
  intros Hs [Hcing Hp] h' refused. subst refused.
  destruct (connectSerial_after config env h) as (Ho & Es & Et & Ee & Ec).
  fold h' in Es, Et, Ee, Ec.
  destruct (SerialRuns.connect_effect config env (serialHook h) Hs)
    as (_ & Hc' & _ & Hcase).
  cbn zeta in Hcase. rewrite <- Es in Hc', Hcase.
  unfold state, serialIsConnected.
  cbn [stateIsConnecting stateError]. rewrite Ee, Ec, Hc'.
  split; [exact Ho|]. split; [exact Et|]. split; [reflexivity|].
  assert (Hold : match Serial.portRef (serialHook h) with
                 | Some _ => false
                 | None => Serial.isConnected (Serial.state (serialHook h))
                 end = false).
  { destruct (Serial.port (Serial.state (serialHook h))) as [p|].
    - destruct Hp as (_ & -> & _). reflexivity.
    - destruct (Serial.portRef (serialHook h)); [reflexivity | exact Hp]. }
  destruct (Serial.requestPort env) as [r|p].
  - destruct Hcase as (He & Hcon & _). rewrite He, Hcon, Hold. split; reflexivity.
  - destruct (Serial.portOpen env) as [r|].
    + destruct Hcase as (He & Hcon & _). rewrite He, Hcon, Hold.
      split; reflexivity.
    + destruct Hcase as (Hcon & _ & _ & _ & _ & _ & He). rewrite Hcon, He.
      split; reflexivity.
Qed.

(** X13: [connectGenerator] never rejects either.  The serial port ends not
    connected; the connection type is generator when the generator was
    configured and started, and null with the message in [error] when
    one of the two threw. *)
Theorem connectGenerator_keeps_failure_in_state (config : Cfg)
    (env : Serial.DisconnectEnv) (h : Hook G) :
  let h' := exec (connectGenerator config env) h in
  let thrown :=
    match outcome (setConfig config) (generatorHook h) with
    | Throw e => Some e
    | Ok _ =>
        match outcome start (exec (setConfig config) (generatorHook h)) with
        | Throw e => Some e
        | Ok _ => None
        end
    end in
  outcome (connectGenerator config env) h = Ok tt
  ∧ serialIsConnected h' = false
  ∧ match thrown with
    | None => connectionType h' = Some generator ∧ error h' = None
    | Some e =>
        connectionType h' = None
        ∧ error h' = Some (messageOr e "Failed to start signal generator")
    end.
Proof.
  intros h' thrown. subst thrown.
  destruct (connectGenerator_after config env h) as (Ho & Es & Et & Ee).
  fold h' in Es, Et, Ee. unfold serialIsConnected. rewrite Es, Et, Ee.
  split; [exact Ho|]. split; [exact (disconnected_if_connected env h)|].
  unfold outcome, exec.
  destruct (setConfig config (generatorHook h)) as [[u|e] g1]; cbn [fst snd].
  - destruct (start g1) as [[u'|e'] g2]; cbn; split; reflexivity.
  - split; reflexivity.
Qed.

(** X14: After [disconnect], and after [connectGenerator], every [write] is
    refused and changes nothing, whatever the hook was before. *)
Theorem write_is_refused_off_serial (data : jsstring)
    (rejection : option BrowserRejection) (config : Cfg)
    (env : Serial.DisconnectEnv) (h : Hook G) :
  let refused (h1 : Hook G) :=
    write data rejection h1
    = (Throw (ErrorObject "Serial port not connected"), h1) in
  refused (exec (disconnect env) h)
  ∧ refused (exec (connectGenerator config env) h).
Proof.
  cbn zeta. split; rewrite write_run.
  - destruct (disconnect_after env h) as (_ & _ & _ & -> & _). reflexivity.
  - destruct (connectGenerator_after config env h) as (_ & Es & _).
    unfold serialIsConnected at 1. rewrite Es.
    rewrite (disconnected_if_connected env h), andb_false_r. reflexivity.
Qed.

(** X15: [disconnect] and [connectGenerator] clear the error of this hook
    only: an error of the serial hook, left by a failed connection or
    write, is still what [state.error] shows after [disconnect]. *)
Theorem serial_error_outlives_disconnect (config : Cfg)
    (env : Serial.DisconnectEnv) (h : Hook G) :
  stateError (state (exec (disconnect env) h))
    = Serial.error (Serial.state (serialHook h))
  ∧ Serial.error (Serial.state (serialHook (exec (connectGenerator config env) h)))
    = Serial.error (Serial.state (serialHook h)).
Proof.
  assert (Hd : Serial.error
                 (Serial.state (if serialIsConnected h
                                then exec (Serial.disconnect env) (serialHook h)
                                else serialHook h))
               = Serial.error (Serial.state (serialHook h))).
  { destruct (serialIsConnected h); [|reflexivity].
    destruct (SerialRuns.disconnect_effect env (serialHook h))
      as (_ & E & _). cbn zeta in E. rewrite E. reflexivity. }
  destruct (disconnect_after env h) as (_ & Es & _ & _ & Ee & _).
  destruct (connectGenerator_after config env h) as (_ & Es' & _).
  unfold state. cbn [stateError]. rewrite Ee, Es, Es'. split; exact Hd.
Qed.

End Operations.

Section Runs.

Context {G Cfg : Type} `{SignalGenerator G Cfg}.

Lemma disconnected_consistent (env : Serial.DisconnectEnv) (h : Hook G) :
  Serial.Consistent (serialHook h) →
  Serial.Consistent (if serialIsConnected h
                     then exec (Serial.disconnect env) (serialHook h)
                     else serialHook h).
Proof.
  intros Hc. destruct (serialIsConnected h); [|exact Hc].
  exact (SerialRuns.operate_consistent (Serial.Disconnect env) _ Hc).
Qed.

(** Every step keeps the hook in agreement with its serial hook. *)
Lemma step_agrees (s : Step) (h : Hook G) :
  Agrees h → Agrees (exec (step s) h).
Proof.
  intros (Hc & Ht & Hi).
  destruct s as [[config env | config env | env] | data rejection];
    cbn [step perform].
  - destruct (connectSerial_after config env h) as (_ & Es & Et & _ & Ei).
    unfold Agrees, serialIsConnected. rewrite Es, Et, Ei.
    split; [|split; [reflexivity | reflexivity]].
    exact (SerialRuns.operate_consistent (Serial.Connect config env) _ Hc).
  - destruct (connectGenerator_after config env h) as (_ & Es & _).
    pose proof (connectGenerator_run config env h) as R. cbn zeta in R.
    unfold Agrees, serialIsConnected. rewrite Es.
    rewrite (disconnected_if_connected env h).
    split; [apply disconnected_consistent, Hc|].
    split; [discriminate|]. unfold exec. rewrite R. exact Hi.
  - destruct (disconnect_after env h) as (_ & Es & _ & _ & _ & Ei & _).
    unfold Agrees, serialIsConnected. rewrite Es, Ei.
    rewrite (disconnected_if_connected env h).
    split; [apply disconnected_consistent, Hc|].
    split; [discriminate | exact Hi].
  - unfold exec. rewrite write_run.
    destruct (bool_decide (connectionType h = Some serial)
              && serialIsConnected h) eqn:Hg;
      [|exact (conj Hc (conj Ht Hi))].
    pose proof (SerialRuns.operate_consistent
                  (Serial.Write data rejection) _ Hc) as Hc'.
    cbn [Serial.operate] in Hc'. unfold exec in Hc'.
    destruct Hc as [_ Hp].
    apply andb_true_iff in Hg as [_ Hcon]. unfold serialIsConnected in *.
    destruct (Serial.port (Serial.state (serialHook h))) as [p|];
      [|congruence].
    destruct Hp as (_ & _ & _ & [w Hw] & _).
    rewrite (SerialRuns.write_with_writer data rejection _ w Hw) in *.
    cbn [snd] in *. split; [exact Hc'|].
    split; [intros _; apply Ht, Hcon | exact Hi].
Qed.

Lemma stepAll_agrees (steps : list Step) : ∀ h : Hook G,
  Agrees h → Agrees (stepAll steps h).
Proof.
  unfold stepAll.
  induction steps as [|s steps IH]; intros h Hh; cbn [foldl]; [exact Hh|].
  apply IH, step_agrees, Hh.
Qed.

Lemma initial_agrees (supported : bool) (g : G) :
  Agrees (initial (Serial.initial supported) g).
Proof.
  split; [apply SerialRuns.initial_consistent|]. split; [discriminate|].
  reflexivity.
Qed.

(** X16: In every hook reached from the initial one, [write] is refused
    exactly when the serial port is not connected: a connected port
    always goes with the connection type serial and with a writer. *)
Theorem write_is_refused_iff_not_connected (supported : bool) (g : G)
    (steps : list Step) (data : jsstring)
    (rejection : option BrowserRejection) :
  let h := stepAll steps (initial (Serial.initial supported) g) in
  (outcome (write data rejection) h
     = Throw (ErrorObject "Serial port not connected")
   ↔ serialIsConnected h = false)
  ∧ (serialIsConnected h = true →
     connectionType h = Some serial
     ∧ is_Some (Serial.writerRef (serialHook h))
     ∧ stateIsConnecting (state h) = false).
Proof.
  intros h.
  destruct (stepAll_agrees steps _ (initial_agrees supported g))
    as ([Hcing Hp] & Ht & Hi).
  fold h in Hcing, Hp, Ht, Hi.
  unfold outcome. rewrite write_run. unfold serialIsConnected in *.
  destruct (Serial.isConnected (Serial.state (serialHook h))) eqn:Hcon.
  - specialize (Ht eq_refl).
    destruct (Serial.port (Serial.state (serialHook h))) as [p|];
      [|congruence].
    destruct Hp as (_ & _ & _ & [w Hw] & _).
    rewrite Ht, bool_decide_eq_true_2 by reflexivity. cbn [andb].
    rewrite (SerialRuns.write_with_writer data rejection _ w Hw). cbn [fst].
    split.
    + split; [destruct rejection; discriminate | discriminate].
    + intros _. split; [reflexivity|]. split; [eauto|].
      unfold state. cbn [stateIsConnecting]. rewrite Hi, Hcing. reflexivity.
  - rewrite andb_false_r. cbn [fst].
    split; [split; reflexivity | discriminate].
Qed.

(** X17: A write right after a connection the browser granted: it is accepted
    and the new writer has been handed the bytes of the data and nothing
    else. *)
Theorem write_after_granted_connection (config : Serial.SerialConfig)
    (env : Serial.ConnectEnv) (p : Serial.Port) (data : jsstring) (h : Hook G) :
  Serial.isSupported (Serial.state (serialHook h)) = true →
  Serial.requestPort env = inr p →
  Serial.portOpen env = None →
  let h' := exec (connectSerial config env ;; write data None) h in
  outcome (connectSerial config env ;; write data None) h = Ok tt
  ∧ Serial.writerRef (serialHook h')
    = Some (Serial.MkWriter [Serial.TextEncoder_encode data]).
Proof.
  intros Hs Hr Ho.
  destruct (connectSerial_after config env h) as (Hok & Es & Et & _).
  destruct (SerialRuns.connect_effect config env (serialHook h) Hs)
    as (_ & _ & _ & Hcase).
  cbn zeta in Hcase. rewrite Hr, Ho, <- Es in Hcase.
  destruct Hcase as (Hcon & _ & _ & _ & Hw & _).
  unfold outcome, exec, mbind, eff_bind in *.
  destruct (connectSerial config env h) as [r h1]. cbn [fst snd] in *.
  subst r. rewrite write_run. unfold serialIsConnected.
  rewrite Et, Hcon, bool_decide_eq_true_2 by reflexivity. cbn [andb].
  rewrite (SerialRuns.write_with_writer data None _ _ Hw). split; reflexivity.
Qed.

End Runs.

Section Laws.

Context {G Cfg : Type} `{SignalGenerator G Cfg} `{!SignalGeneratorLaws G Cfg}.

(** X18: A second [disconnect] does nothing: it makes no call and leaves the
    hook as the first one left it. *)
Theorem disconnect_twice_is_disconnect_once (env env' : Serial.DisconnectEnv)
    (h : Hook G) :
  exec (disconnect env') (exec (disconnect env) h) = exec (disconnect env) h.
Proof.
  set (h1 := exec (disconnect env) h).
  destruct (disconnect_after env h) as (_ & Es & Eg & Et & Ee & _).
  fold h1 in Es, Eg, Et, Ee.
  assert (Hs : serialIsConnected h1 = false).
  { unfold serialIsConnected. rewrite Es. apply disconnected_if_connected. }
  assert (Hg : generatorIsRunning h1 = false).
  { unfold generatorIsRunning. rewrite Eg. apply stopped_if_running. }
  pose proof (disconnect_run env' h1) as R. cbn zeta in R.
  unfold generatorIsRunning in Hg.
  unfold exec at 1. rewrite R, Hs, Hg. cbn [snd]. rewrite !app_nil_r.
  destruct h1 as [t c e s gh j]. cbn in *. subst t e. reflexivity.
Qed.

End Laws.

Import Sample.

(** The chooser is dismissed: the hook is of type serial, not connected,
    and shows the browser's message. *)
Lemma connectSerial_refused_witness :
  connectionType (exec (connectSerial DEFAULT_SERIAL_CONFIG portRefused)
                       generatorRuns) = Some serial
  ∧ serialIsConnected (exec (connectSerial DEFAULT_SERIAL_CONFIG portRefused)
                            generatorRuns) = false
  ∧ stateError (state (exec (connectSerial DEFAULT_SERIAL_CONFIG portRefused)
                            generatorRuns))
    = Some "No port selected by the user."%string.
Proof.
  pose proof (connectSerial_keeps_failure_in_state
                DEFAULT_SERIAL_CONFIG portRefused generatorRuns
                eq_refl (SerialRuns.initial_consistent true)) as P.
  split; [exact (proj1 (proj2 P))|].
  exact (proj2 (proj2 (proj2 P))).
Defined.

Lemma write_after_connection_witness :
  outcome (connectSerial DEFAULT_SERIAL_CONFIG portOpens ;; write [65; 10]%N None)
          generatorRuns = Ok tt
  ∧ Serial.writerRef
      (serialHook (exec (connectSerial DEFAULT_SERIAL_CONFIG portOpens ;;
                         write [65; 10]%N None) generatorRuns))
    = Some (Serial.MkWriter [[65; 10]%N]).
Proof.
  exact (write_after_granted_connection DEFAULT_SERIAL_CONFIG portOpens 1%nat
           [65; 10]%N generatorRuns eq_refl eq_refl eq_refl).
Defined.

Lemma disconnect_twice_witness :
  exec (disconnect (Serial.MkDisconnectEnv None))
       (exec (disconnect (Serial.MkDisconnectEnv None)) generatorRuns)
  = exec (disconnect (Serial.MkDisconnectEnv None)) generatorRuns.
Proof.
  exact (disconnect_twice_is_disconnect_once
           (SignalGeneratorLaws0 := simple_generator_laws)
           (Serial.MkDisconnectEnv None) (Serial.MkDisconnectEnv None)
           generatorRuns).
Defined.

End ConnectionRuns.

(** ** Gestures in sequence *)

Module GestureRuns.

Import App.

Section Laws.

Context {S : Type} `{DataStore S}.
Variable momentumActive : S → bool.
Context `{!DataStoreLaws S momentumActive}.

Lemma toggle_store (a : State S) :
  store (exec onToggleFrozen a) =
  if getFrozen (store a)
  then setFrozen false (setViewPortCursor 0%float (stopMomentum (store a)))
  else setFrozen true (stopMomentum (store a)).
Proof.
  unfold exec. rewrite GestureFacts.onToggleFrozen_run. cbn [snd store].
  rewrite stopMomentum_frozen. reflexivity.
Qed.

Lemma panStart_store (a : State S) :
  store (exec onPanStart a) =
  if getFrozen (store a)
  then stopMomentum (store a)
  else setFrozen true (stopMomentum (store a)).
Proof.
  unfold exec. rewrite GestureFacts.onPanStart_run. cbn [snd store].
  rewrite stopMomentum_frozen. reflexivity.
Qed.

Lemma exec_then {St} (m k : Eff St unit) (st : St) :
  outcome m st = Ok tt → exec (m ;; k) st = exec k (exec m st).
Proof.
  unfold outcome, exec, mbind, eff_bind. destruct (m st) as [r st'].
  cbn. intros ->. reflexivity.
Qed.

Lemma toggle_returns (a : State S) : outcome onToggleFrozen a = Ok tt.
Proof. unfold outcome. rewrite GestureFacts.onToggleFrozen_run. reflexivity. Qed.

Lemma panStart_returns (a : State S) : outcome onPanStart a = Ok tt.
Proof. unfold outcome. rewrite GestureFacts.onPanStart_run. reflexivity. Qed.

(** X19: Two presses of the freeze toggle bring the mode back but not the
    position: the frozen flag is what it was, the cursor is at the live
    edge and no momentum is in flight. *)
Theorem toggling_twice_restores_the_mode (a : State S) :
  let s'' := store (exec (onToggleFrozen ;; onToggleFrozen) a) in
  getFrozen s'' = getFrozen (store a)
  ∧ getViewPortCursor s'' = 0%float
  ∧ momentumActive s'' = false.
Proof.
  intros s''. subst s''. rewrite exec_then by apply toggle_returns.
  rewrite toggle_store, (toggle_store a).
  destruct (getFrozen (store a)) eqn:Hf.
  - rewrite setFrozen_frozen.
    rewrite setFrozen_frozen, setFrozen_true_cursor, stopMomentum_cursor,
      setFrozen_false_cursor, setFrozen_true_active, stopMomentum_active.
    repeat split.
  - rewrite setFrozen_frozen.
    rewrite setFrozen_frozen, setFrozen_false_cursor, setFrozen_false_active.
    repeat split.
Qed.

(** X20: After a pan start the viewport is frozen, so the freeze toggle that
    follows always resumes live mode: not frozen, cursor at the live
    edge, no momentum; and a second pan start only stops the momentum. *)
Theorem toggle_after_pan_resumes_live (a : State S) :
  let s'' := store (exec (onPanStart ;; onToggleFrozen) a) in
  getFrozen s'' = false
  ∧ getViewPortCursor s'' = 0%float
  ∧ momentumActive s'' = false
  ∧ callsOf onPanStart (exec onPanStart a) = [CallStopMomentum].
Proof.
  intros s''. subst s''. rewrite exec_then by apply panStart_returns.
  assert (Hf : getFrozen (store (exec onPanStart a)) = true).
  { rewrite panStart_store.
    destruct (getFrozen (store a)) eqn:Hf;
      [rewrite stopMomentum_frozen; exact Hf | apply setFrozen_frozen]. }
  rewrite toggle_store, Hf.
  rewrite setFrozen_frozen, setFrozen_false_cursor, setFrozen_false_active.
  split; [reflexivity|]. split; [reflexivity|]. split; [reflexivity|].
  unfold callsOf, exec at 1. rewrite GestureFacts.onPanStart_run.
  cbn [snd store watch].
  cbn [getFrozen stopMomentum setFrozen recorder_store recorded inner calls].
  rewrite stopMomentum_frozen, Hf. reflexivity.
Qed.

End Laws.

Import Sample.

Lemma toggling_twice_witness :
  SpecStore.frozen (store (exec (onToggleFrozen ;; onToggleFrozen) frozenApp))
    = true
  ∧ SpecStore.cursor (store (exec (onToggleFrozen ;; onToggleFrozen) frozenApp))
    = 0%float.
Proof.
  pose proof (toggling_twice_restores_the_mode SpecStore.momentumActive
                (DataStoreLaws0 := GestureFacts.spec_store_laws) frozenApp) as P.
  split; [exact (proj1 P) | exact (proj1 (proj2 P))].
Defined.

Lemma toggle_after_pan_witness :
  SpecStore.frozen (store (exec (onPanStart ;; onToggleFrozen) emptyApp)) = false
  ∧ callsOf onPanStart (exec onPanStart emptyApp) = [CallStopMomentum].
Proof.
  pose proof (toggle_after_pan_resumes_live SpecStore.momentumActive
                (DataStoreLaws0 := GestureFacts.spec_store_laws) emptyApp) as P.
  split; [exact (proj1 P) | exact (proj2 (proj2 (proj2 P)))].
Defined.

End GestureRuns.

(** ** The height of the statistics panel *)

Module ResizeFacts.

Import App.

Local Open Scope float_scope.















End ResizeFacts.

(** ** What the parser hands to the store *)

Module ParserRuns.

Import App.

Lemma filter_all {A} (p : A → bool) (l : list A) :
  Forall (λ x, p x = true) (List.filter p l).
Proof.
  induction l as [|x l IH]; simpl; [constructor|].
  destruct (p x) eqn:Px; [constructor; assumption | exact IH].
Qed.

(** X11: Whatever the line, the parser makes at most one call on the store,
    an [append] or a [setSeries].  A row it appends is not empty and
    holds finite numbers only; the names it declares are not empty, and
    none of them is empty or holds a separator. *)
Theorem store_gets_only_clean_input {S} `{DataStore S}
    (Number : jsstring → float) (line : jsstring) (a : State S) :
  let made := callsOf (handleIncomingLine Number line) a in
  length made ≤ 1
  ∧ (∀ c, c ∈ made → (∃ vs, c = CallAppend vs) ∨ (∃ ns, c = CallSetSeries ns))
  ∧ (∀ vs, CallAppend vs ∈ made →
     vs ≠ [] ∧ Forall (λ v, isFinite v = true) vs)
  ∧ (∀ ns, CallSetSeries ns ∈ made →
     ns ≠ []
     ∧ Forall (λ n, n ≠ [] ∧ Forall (λ c, isSeparator c = false) n) ns).
Proof.
  intros made. subst made. rewrite ParserFacts.handleIncomingLine_calls.
  destruct (startsWith (trim line) HASH).
  - pose proof (proj1 (ParserFacts.tokens_wellformed
                         (trim (JS.dropWhile (N.eqb HASH) (trim line))))) as Hw.
    fold (spec_header_names line) in Hw.
    destruct (spec_header_names line) as [|n ns] eqn:En.
    + split; [cbn; lia|]. repeat split; intros; exfalso;
        eapply not_elem_of_nil; eassumption.
    + split; [cbn; lia|].
      split; [intros c Hc; apply list_elem_of_singleton in Hc; eauto|].
      split; intros x Hx; apply list_elem_of_singleton in Hx;
        [discriminate|].
      injection Hx as ->. split; [discriminate | exact Hw].
  - pose proof (filter_all isFinite (Number <$> spec_tokens line)) as Hf.
    fold (spec_values Number line) in Hf.
    destruct (spec_values Number line) as [|v vs] eqn:Ev.
    + split; [cbn; lia|]. repeat split; intros; exfalso;
        eapply not_elem_of_nil; eassumption.
    + split; [cbn; lia|].
      split; [intros c Hc; apply list_elem_of_singleton in Hc; eauto|].
      split; intros x Hx; apply list_elem_of_singleton in Hx;
        [|discriminate].
      injection Hx as ->. split; [discriminate | exact Hf].
Qed.

End ParserRuns.
